(** * A CDCL-style SAT solver (src/code.cpp): shallow embedding and properties

    The development follows the source top-down: the literal / clause /
    formula model, the assignment trail, the branching heuristic,
    backtracking, unit propagation, conflict analysis and the solve driver.

    Conventions of the embedding.
    - A C++ [int] is a [Z].  The only arithmetic the solver performs on
      [int]s is [dl++], [dl - 1] and [++false_count]; signed overflow is
      undefined in C++, so the model covers the defined range.
    - [clause.literals.size() - 1] is computed on [size_t]; its wrap-around
      at size 0 is written out in [size_minus_one].
    - [std::unordered_map<int, Assignment>] is a [gmap Z Assignment],
      [std::set<int>] a [gset Z], [std::vector] a [list],
      [std::optional] an [option], [std::string] a [string].
    - Functions that mutate an argument passed by reference return the new
      value of that argument next to their result.
    - The values drawn from the random generator are a parameter of the
      driver, one pair per decision; a run that needs more decisions than
      it was given draws is reported as unfinished. *)

From stdpp Require Import base gmap sets list strings sorting.
From stdpp Require Import pretty.
From Stdlib Require Import Ascii.

Open Scope Z_scope.

(** ** Literal, Clause, Formula *)

Record Literal : Type := mkLiteral { variable : Z; negation : bool }.

#[global] Instance Literal_eq_dec : EqDecision Literal.
Proof. solve_decision. Defined.

(** [Literal::neg] *)
Definition neg (l : Literal) : Literal :=
  mkLiteral (variable l) (negb (negation l)).

(** [struct Clause] has the single field [literals]. *)
Abbreviation Clause := (list Literal).

Record Formula : Type := mkFormula {
  clauses : list Clause;
  variables : gset Z
}.

(** The constructor [Formula(const vector<Clause>& cls)]: copy the clauses and
    insert the variable of every literal, clause by clause. *)
Definition insert_clause_variables (vars : gset Z) (clause : Clause) : gset Z :=
  foldl (λ vs lit, {[variable lit]} ∪ vs) vars clause.

Definition Formula_new (cls : list Clause) : Formula :=
  {| clauses := cls;
     variables := foldl insert_clause_variables ∅ cls |}.

(** [Formula::get_variables] *)
Definition get_variables (formula : Formula) : gset Z := variables formula.

(** [Literal::to_string]: [std::to_string] of the variable in decimal, after
    the two bytes of the negation sign for a negated literal. *)
Definition Literal_to_string (l : Literal) : string :=
  if negation l then "¬" +:+ pretty (variable l) else pretty (variable l).

(** ** Assignment trail *)

Record Assignment : Type := mkAssignment {
  a_value : bool;
  antecedent : option Clause;
  a_dl : Z
}.

Record Assignments : Type := mkAssignments {
  assignments : gmap Z Assignment;
  dl : Z
}.

(** [Assignments() : dl(0) {}] *)
Definition Assignments_new : Assignments :=
  {| assignments := ∅; dl := 0 |}.

(** [Assignments::value] *)
Definition value (a : Assignments) (literal : Literal) : bool :=
  match assignments a !! variable literal with
  | None => false
  | Some it => if negation literal then negb (a_value it) else a_value it
  end.

(** [Assignments::assign]: insert or overwrite, tagged with the current [dl]. *)
Definition assign (a : Assignments) (var : Z) (val : bool)
    (ante : option Clause) : Assignments :=
  {| assignments := <[var := mkAssignment val ante (dl a)]> (assignments a);
     dl := dl a |}.

(** [Assignments::unassign] *)
Definition unassign (a : Assignments) (var : Z) : Assignments :=
  {| assignments := delete var (assignments a); dl := dl a |}.

(** [Assignments::satisfy]: the inner loop is a search for a true literal. *)
Definition clause_satisfied (a : Assignments) (clause : Clause) : bool :=
  existsb (value a) clause.

Definition satisfy (a : Assignments) (formula : Formula) : bool :=
  forallb (clause_satisfied a) (clauses formula).

(** [Assignments::size] *)
Definition Assignments_size (a : Assignments) : nat := size (assignments a).

(** [all_variables_assigned] *)
Definition all_variables_assigned (formula : Formula) (a : Assignments) : bool :=
  bool_decide (size (get_variables formula) = Assignments_size a).

(** [assignments.find(v) == assignments.end()] *)
Definition unassigned (a : Assignments) (var : Z) : Prop :=
  assignments a !! var = None.

#[global] Instance unassigned_dec a var : Decision (unassigned a var).
Proof. unfold unassigned. apply _. Defined.

(** ** Conflict analysis *)

(** [conflict_analysis] *)
Definition conflict_analysis (clause : Clause) (a : Assignments) : Z * Clause :=
  if dl a =? 0 then (-1, clause)
  else
    let learned_clause := clause in
    let decision_level := dl a - 1 in
    (decision_level, learned_clause).

(** ** Branching heuristic *)

(** [pick_branching_variable].  [std::set] is iterated in increasing order.
    The two draws of the random generator are an input: [draw.1] is the raw
    draw that [var_dist] brings into the range [0, size - 1], [draw.2] is the
    value of [val_dist].  With no unassigned variable the distribution's
    range is empty and the indexing undefined: the model answers [None]. *)
Definition pick_branching_variable (draw : nat * bool) (formula : Formula)
    (a : Assignments) : option (Z * bool) :=
  let unassigned_vars :=
    filter (unassigned a) (merge_sort Z.le (elements (get_variables formula))) in
  var ← unassigned_vars !! (draw.1 `mod` length unassigned_vars)%nat;
  Some (var, draw.2).

(** ** Backtracking *)

(** [backtrack]: collect the variables assigned above level [b], then
    unassign them one by one.  The field [dl] is left as it is. *)
Definition backtrack (a : Assignments) (b : Z) : Assignments :=
  let to_remove :=
    (filter (λ entry, b < a_dl entry.2) (map_to_list (assignments a))).*1 in
  foldl unassign a to_remove.

(** ** Unit propagation *)

(** The loop over the literals of one clause, from the state
    [(false_count, unassigned_literal)]; the third component is
    [clause_satisfied], set by the [break]. *)
Fixpoint scan_literals (a : Assignments) (literals : list Literal)
    (false_count : Z) (unassigned_literal : option Literal)
    : Z * option Literal * bool :=
  match literals with
  | [] => (false_count, unassigned_literal, false)
  | literal :: rest =>
      if decide (unassigned a (variable literal)) then
        scan_literals a rest false_count (Some literal)
      else if value a literal then
        (false_count, unassigned_literal, true)
      else
        scan_literals a rest (false_count + 1) unassigned_literal
  end.

(** [clause.literals.size() - 1] on [size_t] (64 bits): the subtraction wraps
    at size 0; a vector's size is below [2^64], so it wraps nowhere else. *)
Definition SIZE_MAX : Z := 2 ^ 64 - 1.

Definition size_minus_one (clause : Clause) : Z :=
  match clause with
  | [] => SIZE_MAX
  | _ :: _ => Z.of_nat (length clause) - 1
  end.

Inductive pass_result : Type :=
  | PassConflict (clause : Clause) (a : Assignments)
  | PassDone (a : Assignments) (finish : bool).

(** One execution of the [for] loop over [formula.clauses]: the trail and the
    flag [finish] are threaded through, a conflict leaves the loop. *)
Fixpoint propagation_pass (cls : list Clause) (a : Assignments) (finish : bool)
    : pass_result :=
  match cls with
  | [] => PassDone a finish
  | clause :: rest =>
      let '(false_count, unassigned_literal, satisfied) :=
        scan_literals a clause 0 None in
      if satisfied then propagation_pass rest a finish
      else
        match (if false_count =? size_minus_one clause
               then unassigned_literal else None) with
        | Some u =>
            propagation_pass rest
              (assign a (variable u) (negb (negation u)) (Some clause)) false
        | None =>
            if false_count =? Z.of_nat (length clause)
            then PassConflict clause a
            else propagation_pass rest a finish
        end
  end.

(** The [while (!finish)] loop, bounded by a number of passes. *)
Fixpoint unit_propagation_loop (passes : nat) (formula : Formula)
    (a : Assignments) : option (string * option Clause * Assignments) :=
  match passes with
  | O => None
  | S passes' =>
      match propagation_pass (clauses formula) a true with
      | PassConflict clause a' => Some ("conflict", Some clause, a')
      | PassDone a' true => Some ("unresolved", None, a')
      | PassDone a' false => unit_propagation_loop passes' formula a'
      end
  end.

(** Every pass but the last assigns a variable that occurs, unassigned, in
    some clause: the number of such occurrences bounds the number of passes. *)
Definition unassigned_occurrences (cls : list Clause) (a : Assignments) : nat :=
  length (filter (λ l, unassigned a (variable l)) (concat cls)).

(** [unit_propagation]: result and the trail after the call. *)
Definition unit_propagation (formula : Formula) (a : Assignments)
    : option (string * option Clause * Assignments) :=
  unit_propagation_loop (S (unassigned_occurrences (clauses formula) a))
    formula a.

(** ** Solve driver *)

(** [formula.clauses.push_back(learned_clause)] *)
Definition push_back (formula : Formula) (clause : Clause) : Formula :=
  {| clauses := clauses formula ++ [clause]; variables := variables formula |}.

Definition set_dl (a : Assignments) (d : Z) : Assignments :=
  {| assignments := assignments a; dl := d |}.

(** How a call of [cdcl_solve] can end.  [Returned r f]: the call returned
    [r], and the caller's formula is now [f].  [Unfinished f a]: the draws
    supplied ran out with the main loop in state [(f, a)].  [Stuck]: the
    execution left defined behaviour (indexing an empty [unassigned_vars],
    [value()] of an empty optional) or a loop bound of the model was hit. *)
Inductive outcome : Type :=
  | Returned (result : option Assignments) (formula : Formula)
  | Unfinished (formula : Formula) (a : Assignments)
  | Stuck.

Inductive inner_outcome : Type :=
  | Break (formula : Formula) (a : Assignments)
  | ReturnNullopt (formula : Formula)
  | InnerStuck.

(** The inner [while (true)] loop.  Each conflict lowers [dl] by one and the
    loop is left at [dl = 0], so [dl + 1] rounds are enough. *)
Fixpoint propagate_loop (rounds : nat) (formula : Formula) (a : Assignments)
    : inner_outcome :=
  match rounds with
  | O => InnerStuck
  | S rounds' =>
      match unit_propagation formula a with
      | None => InnerStuck
      | Some (reason, clause, a) =>
          if negb (String.eqb reason "conflict") then Break formula a
          else
            match clause with
            | None => InnerStuck
            | Some c =>
                let '(b, learned_clause) := conflict_analysis c a in
                if b <? 0 then ReturnNullopt formula
                else
                  propagate_loop rounds' (push_back formula learned_clause)
                    (set_dl (backtrack a b) b)
            end
      end
  end.

Section Driver.
(** The driver over an arbitrary branching heuristic: [pick d formula a]
    selects a variable and a value from the draw [d], the formula and the
    trail.  One draw is consumed per decision. *)
Context {D : Type}.
Variable pick : D → Formula → Assignments → option (Z * bool).

(** The main [while (!all_variables_assigned(...))] loop. *)
Fixpoint cdcl_loop (draws : list D) (formula : Formula) (a : Assignments)
    : outcome :=
  if all_variables_assigned formula a then Returned (Some a) formula
  else
    match draws with
    | [] => Unfinished formula a
    | d :: draws' =>
        match pick d formula a with
        | None => Stuck
        | Some (var, val) =>
            let a := set_dl a (dl a + 1) in
            let a := assign a var val None in
            match propagate_loop (S (Z.to_nat (dl a))) formula a with
            | Break formula a => cdcl_loop draws' formula a
            | ReturnNullopt formula => Returned None formula
            | InnerStuck => Stuck
            end
        end
    end.

Definition cdcl_solve_with (draws : list D) (formula : Formula) : outcome :=
  match unit_propagation formula Assignments_new with
  | None => Stuck
  | Some (reason, clause, a) =>
      if String.eqb reason "conflict" then Returned None formula
      else cdcl_loop draws formula a
  end.
End Driver.

(** [cdcl_solve], with the source's heuristic.  [draws] are the values the
    random generator yields, a pair per decision. *)
Definition cdcl_solve (draws : list (nat * bool)) (formula : Formula) : outcome :=
  cdcl_solve_with pick_branching_variable draws formula.

(** The driver under a deterministic policy, a function of the formula and
    the trail alone, allowed to make [decisions] decisions. *)
Definition cdcl_solve_policy (policy : Formula → Assignments → option (Z * bool))
    (decisions : nat) (formula : Formula) : outcome :=
  cdcl_solve_with (λ _ : unit, policy) (replicate decisions ()) formula.

(** The run came to an end within the draws it was given. *)
Definition finished (o : outcome) : Prop :=
  match o with
  | Unfinished _ _ => False
  | _ => True
  end.

(** ** Runs of the driver, with what the source leaves open *)

(** Two things in [cdcl_solve] are not fixed by the program text: what the
    random generator in [pick_branching_variable] yields (lines 139-144),
    and the order in which [backtrack] (line 150) iterates over the
    [unordered_map], which the language leaves unspecified.  The relations
    below describe the runs that return, with both left open: the heuristic
    is a relation [picks] between formula, trail and answer, and [backtrack]
    may visit the entries in any order.  Everything else the driver does
    is sequenced by the program: [unit_propagation] walks vectors and only
    looks up and inserts keys. *)

(** [backtrack], with the entries visited in the order [order]. *)
Definition backtrack_in_order (order : list (Z * Assignment)) (a : Assignments)
    (b : Z) : Assignments :=
  let to_remove := (filter (λ entry, b < a_dl entry.2) order).*1 in
  foldl unassign a to_remove.

Inductive backtracks (a : Assignments) (b : Z) : Assignments → Prop :=
  | backtracks_order (order : list (Z * Assignment)) :
      order ≡ₚ map_to_list (assignments a) →
      backtracks a b (backtrack_in_order order a b).

(** The answers of the source's heuristic: what [pick_branching_variable]
    returns for some outcome of the generator. *)
Definition random_pick (formula : Formula) (a : Assignments) (answer : Z * bool)
    : Prop :=
  ∃ draw, pick_branching_variable draw formula a = Some answer.

(** The answers of a deterministic policy. *)
Definition policy_pick (policy : Formula → Assignments → option (Z * bool))
    (formula : Formula) (a : Assignments) (answer : Z * bool) : Prop :=
  policy formula a = Some answer.

(** The inner [while (true)] loop: how it is left, from formula and trail. *)
Inductive inner_runs : Formula → Assignments → inner_outcome → Prop :=
  | inner_runs_break formula a reason clause a' :
      unit_propagation formula a = Some (reason, clause, a') →
      String.eqb reason "conflict" = false →
      inner_runs formula a (Break formula a')
  | inner_runs_nullopt formula a c a' :
      unit_propagation formula a = Some ("conflict", Some c, a') →
      (conflict_analysis c a').1 < 0 →
      inner_runs formula a (ReturnNullopt formula)
  | inner_runs_learn formula a c a' a'' o :
      unit_propagation formula a = Some ("conflict", Some c, a') →
      0 ≤ (conflict_analysis c a').1 →
      backtracks a' (conflict_analysis c a').1 a'' →
      inner_runs (push_back formula (conflict_analysis c a').2)
        (set_dl a'' (conflict_analysis c a').1) o →
      inner_runs formula a o.

Section Runs.
Variable picks : Formula → Assignments → Z * bool → Prop.

(** The main loop, from formula and trail to the value returned and the
    formula left behind. *)
Inductive loop_runs : Formula → Assignments → option Assignments → Formula → Prop :=
  | loop_runs_return formula a :
      all_variables_assigned formula a = true →
      loop_runs formula a (Some a) formula
  | loop_runs_nullopt formula a var val formula' :
      all_variables_assigned formula a = false →
      picks formula a (var, val) →
      inner_runs formula (assign (set_dl a (dl a + 1)) var val None)
        (ReturnNullopt formula') →
      loop_runs formula a None formula'
  | loop_runs_decide formula a var val formula' a' result formula'' :
      all_variables_assigned formula a = false →
      picks formula a (var, val) →
      inner_runs formula (assign (set_dl a (dl a + 1)) var val None)
        (Break formula' a') →
      loop_runs formula' a' result formula'' →
      loop_runs formula a result formula''.

(** [cdcl_solve formula] returns [result] and leaves [formula']. *)
Inductive cdcl_solve_runs : Formula → option Assignments → Formula → Prop :=
  | cdcl_solve_runs_conflict formula clause a :
      unit_propagation formula Assignments_new = Some ("conflict", clause, a) →
      cdcl_solve_runs formula None formula
  | cdcl_solve_runs_loop formula reason clause a result formula' :
      unit_propagation formula Assignments_new = Some (reason, clause, a) →
      String.eqb reason "conflict" = false →
      loop_runs formula a result formula' →
      cdcl_solve_runs formula result formula'.
End Runs.

(** ** The DIMACS parser *)

(** Where a call can end other than by returning: a C++ exception leaves
    [parse_dimacs_cnf] (and, uncaught, [main]); [abs(INT_MIN)] is
    undefined. *)
Inductive exception : Type := invalid_argument | out_of_range.

Inductive result (A : Type) : Type :=
  | Value (x : A)
  | Throws (e : exception)
  | UndefinedBehaviour.
Arguments Value {A} x.
Arguments Throws {A} e.
Arguments UndefinedBehaviour {A}.

Definition INT_MAX : Z := 2 ^ 31 - 1.
Definition INT_MIN : Z := - 2 ^ 31.

Definition newline : ascii := "010"%char.

(** The lines [while (getline(iss, line))] yields from the rest [s] of the
    stream.  [line] is what the call in progress has extracted: [None] when
    it has extracted nothing yet, and then the end of the stream makes it
    fail; the delimiter ends a line, also an empty one. *)
Fixpoint getlines (s : string) (line : option string) : list string :=
  match s with
  | EmptyString => option_list line
  | String c rest =>
      if Ascii.eqb c newline then default EmptyString line :: getlines rest None
      else getlines rest (Some (default EmptyString line +:+ String c EmptyString))
  end.

(** The tokens [while (tokens >> token)] yields: leading white space (of
    the classic locale: [Ascii.is_space]) is skipped, a token extends to the
    next white space or to the end. *)
Fixpoint tokens_of (s : string) (token : option string) : list string :=
  match s with
  | EmptyString => option_list token
  | String c rest =>
      if Ascii.is_space c then option_list token ++ tokens_of rest None
      else tokens_of rest (Some (default EmptyString token +:+ String c EmptyString))
  end.

(** [std::stoi(token)], that is [strtol] in base 10 and a range check:
    white space is skipped, one sign is accepted, then the longest run of
    decimal digits is converted and what follows is ignored; no digit is
    [invalid_argument], a value outside [int] is [out_of_range]. *)
Definition digit_of (c : ascii) : option Z := Z.of_nat <$> Ascii.is_nat c.

Fixpoint strtol_digits (s : string) (acc : option Z) : option Z :=
  match s with
  | EmptyString => acc
  | String c rest =>
      match digit_of c with
      | Some d => strtol_digits rest (Some (10 * default 0 acc + d))
      | None => acc
      end
  end.

Fixpoint skip_spaces (s : string) : string :=
  match s with
  | EmptyString => EmptyString
  | String c rest => if Ascii.is_space c then skip_spaces rest else s
  end.

Definition stoi (str : string) : result Z :=
  let s := skip_spaces str in
  let '(negative, digits) :=
    match s with
    | String c rest =>
        if Ascii.eqb c "-" then (true, rest)
        else if Ascii.eqb c "+" then (false, rest)
        else (false, s)
    | EmptyString => (false, s)
    end in
  match strtol_digits digits None with
  | None => Throws invalid_argument
  | Some n =>
      let v := if negative : bool then - n else n in
      if (INT_MIN <=? v) && (v <=? INT_MAX) then Value v
      else Throws out_of_range
  end.

(** The loop over the tokens of one line, on the state
    [(clauses, current_clause)]. *)
Fixpoint parse_tokens (tokens : list string) (cls : list Clause)
    (current_clause : Clause) : result (list Clause * Clause) :=
  match tokens with
  | [] => Value (cls, current_clause)
  | token :: rest =>
      if String.eqb token "c" || String.eqb token "p"
      then Value (cls, current_clause)
      else
        match stoi token with
        | Value lit =>
            if lit =? 0 then parse_tokens rest (cls ++ [current_clause]) []
            else if lit =? INT_MIN then UndefinedBehaviour
            else
              let var := Z.abs lit in
              let neg := lit <? 0 in
              parse_tokens rest cls (current_clause ++ [mkLiteral var neg])
        | Throws e => Throws e
        | UndefinedBehaviour => UndefinedBehaviour
        end
  end.

(** The loop over the lines. *)
Fixpoint parse_lines (lines : list string) (cls : list Clause)
    (current_clause : Clause) : result (list Clause * Clause) :=
  match lines with
  | [] => Value (cls, current_clause)
  | line :: rest =>
      match parse_tokens (tokens_of line None) cls current_clause with
      | Value (cls, current_clause) => parse_lines rest cls current_clause
      | Throws e => Throws e
      | UndefinedBehaviour => UndefinedBehaviour
      end
  end.

(** [parse_dimacs_cnf] *)
Definition parse_dimacs_cnf (content : string) : result Formula :=
  match parse_lines (getlines content None) [] [] with
  | Value (cls, _) => Value (Formula_new cls)
  | Throws e => Throws e
  | UndefinedBehaviour => UndefinedBehaviour
  end.

(** *** Vocabulary for the parser *)

Fixpoint string_forall (P : ascii → bool) (s : string) : bool :=
  match s with
  | EmptyString => true
  | String c rest => P c && string_forall P rest
  end.

Definition no_newline (s : string) : Prop :=
  string_forall (λ c, negb (Ascii.eqb c newline)) s = true.

Definition no_space (s : string) : Prop :=
  string_forall (λ c, negb (Ascii.is_space c)) s = true.

Definition is_digit (c : ascii) : bool :=
  match digit_of c with Some _ => true | None => false end.

(** What the parser builds literals from: the variable is positive and an
    [int]. *)
Definition parsed_literal (l : Literal) : Prop := 0 < variable l ≤ INT_MAX.

(** A file made of the given lines, each ended by a newline. *)
Definition unlines (lines : list string) : string :=
  foldr (λ line s, line +:+ String newline s) EmptyString lines.

(** A line without tokens, or whose first token is [c] or [p]. *)
Definition ignored_line (line : string) : Prop :=
  match tokens_of line None with
  | [] => True
  | token :: _ => token = "c" ∨ token = "p"
  end.

(** The DIMACS rendering of a clause, given by the integers of its
    literals: the integers in decimal, each followed by a blank, then [0];
    and of a clause list, a line per clause.  [literals_line] is a clause
    with the final [0] missing. *)
Definition literals_line (c : list Z) : string :=
  foldr (λ n s, pretty n +:+ String " " s) EmptyString c.

Definition dimacs_line (c : list Z) : string := literals_line c +:+ "0".

Definition dimacs (cls : list (list Z)) : string :=
  unlines (map dimacs_line cls).

(** The integers that stand for a literal: not 0, and with an absolute
    value that is an [int]. *)
Definition literal_int (n : Z) : Prop := n ≠ 0 ∧ - INT_MAX ≤ n ≤ INT_MAX.

(** ** Sample inputs *)

(** A literal from its DIMACS integer, as [parse_dimacs_cnf] builds it:
    [Literal(abs(lit), lit < 0)]. *)
Definition Literal_of_int (lit : Z) : Literal := mkLiteral (Z.abs lit) (lit <? 0).

Definition clauses_of_ints (cls : list (list Z)) : list Clause :=
  map (map Literal_of_int) cls.

(** (1 ∨ 2) ∧ (¬1 ∨ 2) ∧ (¬2 ∨ 3 ∨ 4), with two decisions: the first
    unassigned variable (1) set to true, which forces 2; then the second of
    the unassigned variables 3 and 4 set to false, which forces 3. *)
Definition sample_clauses : list Clause :=
  clauses_of_ints [[1; 2]; [-1; 2]; [-2; 3; 4]].

Definition sample_draws : list (nat * bool) := [(0%nat, true); (1%nat, false)].

Definition sample_trail : Assignments :=
  Eval vm_compute in
    match cdcl_solve sample_draws (Formula_new sample_clauses) with
    | Returned (Some a) _ => a
    | _ => Assignments_new
    end.

(** (¬1 ∨ 2) ∧ (¬1 ∨ ¬2) ∧ (1 ∨ 3): deciding 1 = true runs into a conflict
    at level 1; the next decisions are 1 = false and 2 = true. *)
Definition learning_clauses : list Clause :=
  clauses_of_ints [[-1; 2]; [-1; -2]; [1; 3]].

Definition learning_draws : list (nat * bool) :=
  [(0%nat, true); (0%nat, false); (0%nat, true)].

(** (1) ∧ (¬1) *)
Definition contradictory_units : list Clause := clauses_of_ints [[1]; [-1]].

(** (1 ∨ 2) ∧ (¬1 ∨ 2) ∧ (¬2): propagation alone reaches a conflict. *)
Definition propagated_conflict : list Clause :=
  clauses_of_ints [[1; 2]; [-1; 2]; [-2]].

(** (1) ∧ (¬1 ∨ 2): propagation forces 1 and then 2. *)
Definition unit_chain : list Clause := clauses_of_ints [[1]; [-1; 2]].

Definition unit_chain_trail : Assignments :=
  Eval vm_compute in
    match unit_propagation (Formula_new unit_chain) Assignments_new with
    | Some (_, _, a) => a
    | None => Assignments_new
    end.

(** (1 ∨ 2) ∧ (¬1 ∨ 2) ∧ (1 ∨ ¬2) ∧ (¬1 ∨ ¬2): unsatisfiable, and no clause
    is unit or falsified under the empty trail. *)
Definition all_sign_patterns : list Clause :=
  clauses_of_ints [[1; 2]; [-1; 2]; [1; -2]; [-1; -2]].

(** (1 ∨ 2), and the two trails the solver returns after deciding 1 = false
    and after deciding 2 = false. *)
Definition binary_clause : list Clause := clauses_of_ints [[1; 2]].

Definition binary_trail_1 : Assignments :=
  Eval vm_compute in
    match cdcl_solve [(0%nat, false)] (Formula_new binary_clause) with
    | Returned (Some a) _ => a
    | _ => Assignments_new
    end.

Definition binary_trail_2 : Assignments :=
  Eval vm_compute in
    match cdcl_solve [(1%nat, false)] (Formula_new binary_clause) with
    | Returned (Some a) _ => a
    | _ => Assignments_new
    end.

(** The policy "lowest unassigned variable, true". *)
Definition first_unassigned_true (formula : Formula) (a : Assignments)
    : option (Z * bool) :=
  pick_branching_variable (0%nat, true) formula a.

(** ** Vocabulary of the specification *)

(** A literal is false under the trail: its variable is assigned and the
    literal evaluates to false. *)
Definition literal_false (a : Assignments) (l : Literal) : Prop :=
  ¬ unassigned a (variable l) ∧ value a l = false.

(** A conflict: every literal of the clause is assigned and false. *)
Definition falsified (a : Assignments) (clause : Clause) : Prop :=
  Forall (literal_false a) clause.

(** A unit clause: exactly one unassigned literal, all others false. *)
Definition unit_clause (a : Assignments) (clause : Clause) : Prop :=
  ∃ before u after,
    clause = before ++ u :: after
    ∧ unassigned a (variable u)
    ∧ falsified a (before ++ after).

(** The variables that occur in a clause list. *)
Definition occurs_in (cls : list Clause) (v : Z) : Prop :=
  ∃ c l, c ∈ cls ∧ l ∈ c ∧ variable l = v.

(** The formula of a run that started from the clause list [cls]: the
    variable set is the one the constructor computed, the clause list is
    [cls] followed by learned clauses, each a copy of a clause of [cls]. *)
Definition grown_from (cls : list Clause) (formula : Formula) : Prop :=
  variables formula = variables (Formula_new cls)
  ∧ ∃ learned, clauses formula = cls ++ learned ∧ ∀ c, c ∈ learned → c ∈ cls.

(** [extends cls a a']: from [a] to [a'] the trail only gained entries, all
    for variables of [cls]; the decision level is the same. *)
Definition extends (cls : list Clause) (a a' : Assignments) : Prop :=
  dl a' = dl a
  ∧ assignments a ⊆ assignments a'
  ∧ ∀ v, ¬ unassigned a' v → ¬ unassigned a v ∨ occurs_in cls v.

(** Every trail entry is for a variable of the formula. *)
Definition within_variables (formula : Formula) (a : Assignments) : Prop :=
  ∀ v, ¬ unassigned a v → v ∈ get_variables formula.

(** ** Valuations *)

(** The truth value of a literal under a total valuation of the variables. *)
Definition literal_true (M : Z → bool) (l : Literal) : bool :=
  if negation l then negb (M (variable l)) else M (variable l).

(** [M] satisfies every clause of [cls]. *)
Definition models (M : Z → bool) (cls : list Clause) : Prop :=
  ∀ c, c ∈ cls → ∃ l, l ∈ c ∧ literal_true M l = true.

Definition satisfiable (cls : list Clause) : Prop := ∃ M, models M cls.

(** [M] gives every assigned variable the value the trail stores. *)
Definition agrees (M : Z → bool) (a : Assignments) : Prop :=
  ∀ v e, assignments a !! v = Some e → M v = a_value e.

(** The valuation a trail stands for: the stored value, false where the
    trail has no entry. *)
Definition valuation_of (a : Assignments) : Z → bool :=
  λ v, value a (mkLiteral v false).

(** The clause [c] forces variable [v] under the trail: one literal of [c],
    on [v], is true and every other literal of [c] is false. *)
Definition forced_by (a : Assignments) (v : Z) (c : Clause) : Prop :=
  ∃ before u after,
    c = before ++ u :: after
    ∧ variable u = v
    ∧ value a u = true
    ∧ falsified a (before ++ after).

(** What a call of [unit_propagation] added: entries above those of [a], each at level [dl a]
    with an antecedent of [cls] that forces it under the trail [a']. *)
Definition added_by_propagation (cls : list Clause) (a a' : Assignments) : Prop :=
  dl a' = dl a
  ∧ assignments a ⊆ assignments a'
  ∧ ∀ v e, assignments a' !! v = Some e → assignments a !! v = None →
      a_dl e = dl a
      ∧ ∃ c, antecedent e = Some c ∧ c ∈ cls ∧ forced_by a' v c.

(** Under the trail no clause is falsified and none is unit. *)
Definition propagation_fixpoint (cls : list Clause) (a : Assignments) : Prop :=
  ∀ c, c ∈ cls → ¬ falsified a c ∧ ¬ unit_clause a c.

(** The state of the driver each time the test of its main loop is reached,
    in a run started from the clause list [cls]. *)
Definition loop_head (cls : list Clause) (formula : Formula) (a : Assignments)
    : Prop :=
  grown_from cls formula
  ∧ within_variables formula a
  ∧ propagation_fixpoint (clauses formula) a
  ∧ (∀ v e, assignments a !! v = Some e → 0 ≤ a_dl e ≤ dl a)
  ∧ 0 ≤ dl a ≤ Z.of_nat (Assignments_size a).

(** Splits [loop_head] into its five parts. *)
Ltac split_loop_head := refine (conj _ (conj _ (conj _ (conj _ _)))).

(** * Properties *)

(** ** Literal evaluation *)

(** C8: a literal whose variable has no trail entry evaluates to false; for an
    assigned variable, [value] is the stored truth value, negated when the
    literal has negative polarity. *)
Theorem value_unassigned_false_assigned_stored :
  ∀ (a : Assignments) (l : Literal),
    (assignments a !! variable l = None → value a l = false)
    ∧ (∀ e, assignments a !! variable l = Some e →
         value a l = if negation l then negb (a_value e) else a_value e).
Proof.
  intros a l. unfold value. split.
  - by intros ->.
  - by intros e ->.
Qed.

Lemma value_unassigned_false_assigned_stored_witness :
  value sample_trail (Literal_of_int 7) = false
  ∧ value sample_trail (Literal_of_int (-4)) = true.
Proof.
  split.
  - apply (proj1 (value_unassigned_false_assigned_stored sample_trail
                    (Literal_of_int 7))).
    vm_compute. reflexivity.
  - apply (proj2 (value_unassigned_false_assigned_stored sample_trail
                    (Literal_of_int (-4)))
             (mkAssignment false None 2)).
    vm_compute. reflexivity.
Defined.

(** C10: on an assigned variable, [value] commutes with negation; on an
    unassigned one both polarities evaluate to false, so
    [value (neg l) = negb (value l)] holds exactly on assigned variables. *)
Theorem value_neg_asymmetry :
  ∀ (a : Assignments) (l : Literal),
    (is_Some (assignments a !! variable l) → value a (neg l) = negb (value a l))
    ∧ (assignments a !! variable l = None →
       value a l = false ∧ value a (neg l) = false)
    ∧ (value a (neg l) = negb (value a l) ↔ is_Some (assignments a !! variable l)).
Proof.
  intros a l. unfold value, neg. simpl.
  destruct (assignments a !! variable l) as [e|] eqn:He.
  - assert (Hn : (if negb (negation l) then negb (a_value e) else a_value e)
               = negb (if negation l then negb (a_value e) else a_value e)).
    { by destruct (negation l), (a_value e). }
    split_and!; [done | done | split; eauto].
  - split_and!; [by intros [? ?] | done | ].
    split; [done | by intros [? ?]].
Qed.

Lemma value_neg_asymmetry_witness :
  value sample_trail (neg (Literal_of_int 4))
  = negb (value sample_trail (Literal_of_int 4))
  ∧ (value sample_trail (Literal_of_int 7) = false
     ∧ value sample_trail (neg (Literal_of_int 7)) = false).
Proof.
  split.
  - apply (proj1 (value_neg_asymmetry sample_trail (Literal_of_int 4))).
    vm_compute. by eexists.
  - apply (proj1 (proj2 (value_neg_asymmetry sample_trail (Literal_of_int 7)))).
    vm_compute. reflexivity.
Defined.

(** ** Conflict analysis *)

(** C4: at decision level 0 the sentinel level -1 is returned; otherwise the
    level one below the current one, with the conflicting clause itself as
    the clause to learn. *)
Theorem conflict_analysis_contract :
  ∀ (c : Clause) (a : Assignments),
    (dl a = 0 → (conflict_analysis c a).1 = -1)
    ∧ (dl a ≠ 0 → conflict_analysis c a = (dl a - 1, c)).
Proof.
  intros c a. unfold conflict_analysis.
  destruct (Z.eqb_spec (dl a) 0) as [H0 | Hn]; split; intros; simpl; congruence.
Qed.

Lemma conflict_analysis_contract_witness :
  (conflict_analysis [Literal_of_int 1] Assignments_new).1 = -1
  ∧ conflict_analysis [Literal_of_int (-3)] sample_trail
    = (dl sample_trail - 1, [Literal_of_int (-3)]).
Proof.
  split.
  - apply (proj1 (conflict_analysis_contract [Literal_of_int 1] Assignments_new)).
    reflexivity.
  - apply (proj2 (conflict_analysis_contract [Literal_of_int (-3)] sample_trail)).
    vm_compute. discriminate.
Defined.

(** ** Backtracking *)

Lemma unassign_all_lookup (ks : list Z) (a : Assignments) (v : Z) :
  assignments (foldl unassign a ks) !! v
  = if decide (v ∈ ks) then None else assignments a !! v.
Proof.
  revert a. induction ks as [|k ks IH]; intros a; simpl.
  - done.
  - rewrite IH. simpl.
    destruct (decide (v ∈ ks)) as [Hin|Hnin].
    + rewrite decide_True; [done | by right].
    + destruct (decide (v = k)) as [->|Hne].
      * rewrite decide_True; [| by left]. by rewrite lookup_delete_eq.
      * rewrite decide_False; [by rewrite lookup_delete_ne |].
        by intros [?|?]%elem_of_cons.
Qed.

Lemma unassign_all_dl (ks : list Z) (a : Assignments) :
  dl (foldl unassign a ks) = dl a.
Proof. revert a. induction ks as [|k ks IH]; intros a; simpl; [done | by rewrite IH]. Qed.

Lemma backtrack_dl (a : Assignments) (b : Z) : dl (backtrack a b) = dl a.
Proof. apply unassign_all_dl. Qed.

Lemma backtrack_lookup (a : Assignments) (b : Z) (v : Z) :
  assignments (backtrack a b) !! v
  = match assignments a !! v with
    | Some e => if decide (b < a_dl e) then None else Some e
    | None => None
    end.
Proof.
  unfold backtrack. rewrite unassign_all_lookup.
  destruct (assignments a !! v) as [e|] eqn:He.
  - destruct (decide (b < a_dl e)) as [Hlt|Hge].
    + rewrite decide_True; [done |].
      apply list_elem_of_fmap. exists (v, e). split; [done |].
      apply list_elem_of_filter. split; [done | by apply elem_of_map_to_list].
    + rewrite decide_False; [done |].
      intros ([v' e'] & -> & [Hlt Hin%elem_of_map_to_list]%list_elem_of_filter)%list_elem_of_fmap.
      simpl in *. congruence.
  - by case_decide.
Qed.

(** C6: after [backtrack a b] no entry has a decision level above [b]; an
    entry at a level up to [b] is kept as it was (value, antecedent, level);
    an entry above [b] has no entry left at all; nothing new appears. *)
Theorem backtrack_correct :
  ∀ (a : Assignments) (b : Z),
    (∀ v e, assignments (backtrack a b) !! v = Some e → a_dl e ≤ b)
    ∧ (∀ v e, assignments a !! v = Some e → a_dl e ≤ b →
         assignments (backtrack a b) !! v = Some e)
    ∧ (∀ v e, assignments a !! v = Some e → b < a_dl e →
         assignments (backtrack a b) !! v = None)
    ∧ (∀ v e, assignments (backtrack a b) !! v = Some e →
         assignments a !! v = Some e).
Proof.
  intros a b. split_and!; intros v e; rewrite !backtrack_lookup.
  - destruct (assignments a !! v) as [e'|]; [| done].
    case_decide; [done |]. intros [= ->]. lia.
  - intros -> Hle. rewrite decide_False; [done | lia].
  - intros -> Hlt. by rewrite decide_True.
  - destruct (assignments a !! v) as [e'|]; [| done]. by case_decide.
Qed.

Lemma backtrack_correct_witness :
  assignments (backtrack sample_trail 1) !! 2
  = Some (mkAssignment true (Some (clauses_of_ints [[-1; 2]] !!! 0%nat)) 1)
  ∧ assignments (backtrack sample_trail 1) !! 4 = None.
Proof.
  pose proof (backtrack_correct sample_trail 1) as (_ & Hkept & Hgone & _).
  split.
  - apply Hkept; vm_compute; [reflexivity | discriminate].
  - apply (Hgone 4 (mkAssignment false None 2)); vm_compute; reflexivity.
Defined.

(** ** Unit propagation: the scan of one clause *)

Lemma value_true_assigned (a : Assignments) (l : Literal) :
  value a l = true → ¬ unassigned a (variable l).
Proof. unfold value, unassigned. by destruct (assignments a !! variable l). Qed.

Lemma scan_literals_satisfied a lits fc ul fc' ul' :
  scan_literals a lits fc ul = (fc', ul', true) →
  ∃ l, l ∈ lits ∧ value a l = true.
Proof.
  revert fc ul. induction lits as [|l lits IH]; intros fc ul; simpl; [done |].
  destruct (decide (unassigned a (variable l))).
  - intros (l' & ? & ?)%IH. exists l'. split; [by right | done].
  - destruct (value a l) eqn:Hv.
    + intros _. exists l. split; [by left | done].
    + intros (l' & ? & ?)%IH. exists l'. split; [by right | done].
Qed.

Lemma scan_literals_unsatisfied a lits fc ul fc' ul' :
  scan_literals a lits fc ul = (fc', ul', false) →
  (∀ l, l ∈ lits → value a l = false)
  ∧ fc ≤ fc' ≤ fc + Z.of_nat (length lits)
  ∧ (fc' = fc + Z.of_nat (length lits) → falsified a lits)
  ∧ (ul' = ul ∨ ∃ u, ul' = Some u ∧ u ∈ lits ∧ unassigned a (variable u)).
Proof.
  revert fc ul. induction lits as [|l lits IH]; intros fc ul; simpl.
  - intros [= <- <-]. refine (conj _ (conj _ (conj _ _))); [by intros ? ?%elem_of_nil | lia | | by left].
    intros _. constructor.
  - destruct (decide (unassigned a (variable l))) as [Hu|Ha].
    + intros (Hval & Hrange & Hall & Hul)%IH. refine (conj _ (conj _ (conj _ _))).
      * intros l' [->|?]%elem_of_cons; [| by apply Hval].
        unfold value. by rewrite Hu.
      * lia.
      * lia.
      * right. destruct Hul as [->|(u & -> & ? & ?)].
        -- exists l. split_and!; [done | by left | done].
        -- exists u. split_and!; [done | by right | done].
    + destruct (value a l) eqn:Hv; [done |].
      intros (Hval & Hrange & Hall & Hul)%IH. refine (conj _ (conj _ (conj _ _))).
      * intros l' [->|?]%elem_of_cons; [done | by apply Hval].
      * lia.
      * intros Heq. constructor; [done |]. apply Hall. lia.
      * destruct Hul as [->|(u & -> & ? & ?)]; [by left |].
        right. exists u. split_and!; [done | by right | done].
Qed.

Lemma scan_literals_falsified_app a before rest fc ul :
  falsified a before →
  scan_literals a (before ++ rest) fc ul
  = scan_literals a rest (fc + Z.of_nat (length before)) ul.
Proof.
  intros Hf. revert fc. induction Hf as [|l before [Ha Hv] _ IH]; intros fc; simpl.
  - f_equal. lia.
  - rewrite decide_False by done. rewrite Hv, IH. f_equal. lia.
Qed.

Lemma scan_literals_falsified a c :
  falsified a c → scan_literals a c 0 None = (Z.of_nat (length c), None, false).
Proof.
  intros Hf. rewrite <- (app_nil_r c) at 1.
  by rewrite scan_literals_falsified_app.
Qed.

Lemma scan_literals_unit a before u after :
  unassigned a (variable u) → falsified a (before ++ after) →
  scan_literals a (before ++ u :: after) 0 None
  = (Z.of_nat (length (before ++ after)), Some u, false).
Proof.
  intros Hu [Hb Ha]%Forall_app.
  rewrite scan_literals_falsified_app by done. simpl.
  rewrite decide_True by done.
  rewrite <- (app_nil_r after) at 1.
  rewrite scan_literals_falsified_app by done. simpl.
  rewrite length_app. do 2 f_equal. lia.
Qed.

Lemma size_minus_one_cons (l : Literal) (c : Clause) :
  size_minus_one (l :: c) = Z.of_nat (length c).
Proof. unfold size_minus_one. simpl length. lia. Qed.

Lemma size_minus_one_middle (before after : list Literal) (u : Literal) :
  size_minus_one (before ++ u :: after) = Z.of_nat (length (before ++ after)).
Proof.
  destruct before; simpl app; rewrite size_minus_one_cons;
    simpl length; rewrite ?length_app; simpl length; lia.
Qed.

(** What one round of the loop over the clauses does with the clause [c]:
    it forces a literal of [c] that was unassigned, or reports [c] as a
    conflict, or moves on; it moves on only from a clause that is neither
    falsified nor unit. *)
Lemma propagation_pass_cons (a : Assignments) (c : Clause) (rest : list Clause)
    (fin : bool) :
  (∃ u, u ∈ c ∧ unassigned a (variable u)
        ∧ propagation_pass (c :: rest) a fin
          = propagation_pass rest
              (assign a (variable u) (negb (negation u)) (Some c)) false)
  ∨ (falsified a c ∧ propagation_pass (c :: rest) a fin = PassConflict c a)
  ∨ (¬ falsified a c ∧ ¬ unit_clause a c
     ∧ propagation_pass (c :: rest) a fin = propagation_pass rest a fin).
Proof.
  simpl. destruct (scan_literals a c 0 None) as [[fc ul] sat] eqn:Hscan.
  destruct sat.
  - right; right.
    apply scan_literals_satisfied in Hscan as (l & Hl & Hv).
    split_and!; [| | done].
    + intros Hf. eapply Forall_forall in Hf as [_ Hf]; [| done]. congruence.
    + intros (before & u & after & -> & Hu & [Hb Hafter]%Forall_app).
      apply elem_of_app in Hl as [Hl | [-> | Hl]%elem_of_cons].
      * eapply Forall_forall in Hb as [_ ?]; [| done]. congruence.
      * by apply value_true_assigned in Hv.
      * eapply Forall_forall in Hafter as [_ ?]; [| done]. congruence.
  - pose proof Hscan as (Hval & Hrange & Hall & Hul)%scan_literals_unsatisfied.
    destruct (if fc =? size_minus_one c then ul else None) as [u|] eqn:Hunit.
    + left. exists u. destruct (fc =? size_minus_one c); [| done]. subst ul.
      destruct Hul as [|(u' & [= <-] & ? & ?)]; [done | by split_and!].
    + destruct (Z.eqb_spec fc (Z.of_nat (length c))) as [Heq|Hne].
      * right; left. split; [| done]. apply Hall. lia.
      * right; right. split_and!; [| | done].
        -- intros Hf%scan_literals_falsified. congruence.
        -- intros (before & u & after & -> & Hu & Hf).
           rewrite scan_literals_unit in Hscan by done.
           injection Hscan as <- <-.
           rewrite size_minus_one_middle, Z.eqb_refl in Hunit. done.
Qed.

(** ** Unit propagation: one pass and the loop of passes *)

Lemma extends_refl cls a : extends cls a a.
Proof. unfold extends. split_and!; [done | done | by left]. Qed.

Lemma extends_trans cls a1 a2 a3 :
  extends cls a1 a2 → extends cls a2 a3 → extends cls a1 a3.
Proof.
  intros (Hd1 & Hs1 & Hv1) (Hd2 & Hs2 & Hv2). split_and!.
  - congruence.
  - by etrans.
  - intros v [Hv | Hv]%Hv2; [by apply Hv1 | by right].
Qed.

Lemma extends_assign cls a c u val ante :
  c ∈ cls → u ∈ c → unassigned a (variable u) →
  extends cls a (assign a (variable u) val ante).
Proof.
  intros Hc Hu Hun. split_and!; simpl.
  - done.
  - by apply insert_subseteq.
  - intros v Hv. destruct (decide (v = variable u)) as [->|Hne].
    + right. by exists c, u.
    + left. unfold unassigned in *. simpl in Hv.
      by rewrite lookup_insert_ne in Hv.
Qed.

Lemma extends_unassigned cls a a' v :
  extends cls a a' → unassigned a' v → unassigned a v.
Proof.
  intros (_ & Hsub & _) Hv. unfold unassigned in *.
  by eapply lookup_weaken_None.
Qed.

Section FilterLength.
Context {A : Type} (P Q : A → Prop).
Context `{!∀ x, Decision (P x), !∀ x, Decision (Q x)}.
Hypothesis Q_P : ∀ x, Q x → P x.

Lemma filter_length_le (l : list A) :
  (length (filter Q l) ≤ length (filter P l))%nat.
Proof.
  induction l as [|x l IH]; [done |].
  rewrite !filter_cons. destruct (decide (Q x)) as [HQ|HQ].
  - rewrite decide_True by auto. simpl. lia.
  - destruct (decide (P x)); simpl; lia.
Qed.

Lemma filter_length_lt (l : list A) (x : A) :
  x ∈ l → P x → ¬ Q x → (length (filter Q l) < length (filter P l))%nat.
Proof.
  intros Hx HP HQ. induction l as [|y l IH]; [by apply elem_of_nil in Hx |].
  rewrite !filter_cons. apply elem_of_cons in Hx as [<- | Hx].
  - rewrite decide_False, decide_True by done. simpl.
    pose proof (filter_length_le l). lia.
  - specialize (IH Hx). destruct (decide (Q y)) as [HQy|HQy].
    + rewrite decide_True by auto. simpl. lia.
    + destruct (decide (P y)); simpl; lia.
Qed.
End FilterLength.

Lemma unassigned_occurrences_mono cls a a' :
  extends cls a a' →
  (unassigned_occurrences cls a' ≤ unassigned_occurrences cls a)%nat.
Proof.
  intros He. unfold unassigned_occurrences.
  apply filter_length_le. intros l. by apply (extends_unassigned cls).
Qed.

Lemma unassigned_occurrences_assign cls a c u val ante :
  c ∈ cls → u ∈ c → unassigned a (variable u) →
  (unassigned_occurrences cls (assign a (variable u) val ante)
   < unassigned_occurrences cls a)%nat.
Proof.
  intros Hc Hu Hun. unfold unassigned_occurrences.
  apply filter_length_lt with (x := u).
  - intros l. eapply extends_unassigned. by eapply extends_assign.
  - apply list_elem_of_In, in_concat. exists c. by rewrite <- !list_elem_of_In.
  - done.
  - unfold unassigned. simpl. by rewrite lookup_insert_eq.
Qed.

(** A pass over the clauses [todo] of [cls], started on trail [a] with flag
    [fin]: a conflict is a falsified clause of [todo]; a pass that ends with
    the flag set changed nothing and met no falsified and no unit clause; a
    pass that ends with the flag cleared, when started with it set, has
    lowered the number of unassigned occurrences. *)
Lemma propagation_pass_spec (cls todo : list Clause) :
  (∀ c, c ∈ todo → c ∈ cls) →
  ∀ a fin,
    match propagation_pass todo a fin with
    | PassConflict c a' => c ∈ todo ∧ falsified a' c ∧ extends cls a a'
    | PassDone a' fin' =>
        extends cls a a'
        ∧ if fin'
          then fin = true ∧ a' = a
               ∧ ∀ c, c ∈ todo → ¬ falsified a c ∧ ¬ unit_clause a c
          else fin = false
               ∨ (unassigned_occurrences cls a' < unassigned_occurrences cls a)%nat
    end.
Proof.
  induction todo as [|c todo IH]; intros Hsub a fin.
  - simpl. split; [apply extends_refl |].
    destruct fin; [| by left]. split_and!; [done | done |].
    by intros c ?%elem_of_nil.
  - assert (Hc : c ∈ cls) by (apply Hsub; by left).
    assert (Hsub' : ∀ c', c' ∈ todo → c' ∈ cls) by (intros; apply Hsub; by right).
    specialize (IH Hsub').
    destruct (propagation_pass_cons a c todo fin)
      as [(u & Hu & Hun & ->) | [(Hf & ->) | (Hnf & Hnu & ->)]].
    + pose proof (extends_assign cls a c u (negb (negation u)) (Some c) Hc Hu Hun)
        as Hext.
      pose proof (unassigned_occurrences_assign cls a c u (negb (negation u))
                    (Some c) Hc Hu Hun) as Hlt.
      specialize (IH (assign a (variable u) (negb (negation u)) (Some c)) false).
      destruct (propagation_pass todo _ false) as [c' a'|a' fin'].
      * destruct IH as (? & ? & ?). split_and!; [by right | done |].
        by eapply extends_trans.
      * destruct IH as [He IH]. split; [by eapply extends_trans |].
        destruct fin'; [by destruct IH |].
        right. pose proof (unassigned_occurrences_mono _ _ _ He). lia.
    + split_and!; [by left | done | apply extends_refl].
    + specialize (IH a fin).
      destruct (propagation_pass todo a fin) as [c' a'|a' fin'].
      * destruct IH as (? & ? & ?). split_and!; [by right | done | done].
      * destruct IH as [He IH]. split; [done |].
        destruct fin'; [| done].
        destruct IH as (-> & -> & IH). split_and!; [done | done |].
        intros c' [->|Hc']%elem_of_cons; [done | by apply IH].
Qed.

(** The loop of passes: with more passes allowed than there are unassigned
    occurrences it ends, either with a falsified clause of the formula or on
    a trail under which no clause is falsified and none is unit. *)
Lemma unit_propagation_loop_spec (formula : Formula) (passes : nat) :
  ∀ a, (unassigned_occurrences (clauses formula) a < passes)%nat →
    ∃ reason clause a',
      unit_propagation_loop passes formula a = Some (reason, clause, a')
      ∧ extends (clauses formula) a a'
      ∧ ((reason = "conflict"
          ∧ ∃ c, clause = Some c ∧ c ∈ clauses formula ∧ falsified a' c)
         ∨ (reason = "unresolved" ∧ clause = None
            ∧ ∀ c, c ∈ clauses formula → ¬ falsified a' c ∧ ¬ unit_clause a' c)).
Proof.
  induction passes as [|passes IH]; intros a Hlt; [lia |].
  simpl.
  pose proof (propagation_pass_spec (clauses formula) (clauses formula)
                (λ _ H, H) a true) as Hpass.
  destruct (propagation_pass (clauses formula) a true) as [c a'|a' fin'].
  - destruct Hpass as (Hc & Hf & He).
    exists "conflict", (Some c), a'. split_and!; [done | done |].
    left. split; [done |]. by exists c.
  - destruct Hpass as [He Hpass]. destruct fin'.
    + destruct Hpass as (_ & -> & Hfix).
      exists "unresolved", None, a. split_and!; [done | done |]. by right.
    + destruct Hpass as [? | Hdec]; [done |].
      destruct (IH a') as (reason & clause & a'' & Heq & He' & Hres); [lia |].
      exists reason, clause, a''. split_and!; [done | by eapply extends_trans |].
      destruct Hres as [(-> & c & -> & ? & ?) | (-> & -> & ?)].
      * left. split; [done |]. by exists c.
      * by right.
Qed.

Lemma unit_propagation_spec (formula : Formula) (a : Assignments) :
  ∃ reason clause a',
    unit_propagation formula a = Some (reason, clause, a')
    ∧ extends (clauses formula) a a'
    ∧ ((reason = "conflict"
        ∧ ∃ c, clause = Some c ∧ c ∈ clauses formula ∧ falsified a' c)
       ∨ (reason = "unresolved" ∧ clause = None
          ∧ ∀ c, c ∈ clauses formula → ¬ falsified a' c ∧ ¬ unit_clause a' c)).
Proof. apply unit_propagation_loop_spec. lia. Qed.

(** C3: [unit_propagation] always returns; it answers "conflict" only with a
    clause of the formula whose literals are all assigned and false under
    the trail it leaves, and "unresolved" only on a trail under which no
    clause of the formula is unit and none is falsified. *)
Theorem unit_propagation_contract :
  ∀ (formula : Formula) (a : Assignments),
    ∃ reason clause a',
      unit_propagation formula a = Some (reason, clause, a')
      ∧ (reason = "conflict" →
         ∃ c, clause = Some c ∧ c ∈ clauses formula
              ∧ ∀ l, l ∈ c →
                  is_Some (assignments a' !! variable l) ∧ value a' l = false)
      ∧ (reason = "unresolved" →
         clause = None
         ∧ ∀ c, c ∈ clauses formula → ¬ unit_clause a' c ∧ ¬ falsified a' c).
Proof.
  intros formula a.
  destruct (unit_propagation_spec formula a)
    as (reason & clause & a' & Heq & _ & Hres).
  exists reason, clause, a'. split; [done |].
  destruct Hres as [(-> & c & -> & Hc & Hf) | (-> & -> & Hfix)].
  - split; [| done]. intros _. exists c. split_and!; [done | done |].
    intros l Hl. eapply Forall_forall in Hf as [Ha Hv]; [| done].
    split; [| done]. unfold unassigned in Ha.
    by apply not_eq_None_Some.
  - split; [done |]. intros _. split; [done |].
    intros c Hc. destruct (Hfix c Hc). done.
Qed.

Lemma unit_propagation_contract_witness :
  (∃ c a',
     unit_propagation (Formula_new propagated_conflict) Assignments_new
     = Some ("conflict", Some c, a')
     ∧ c ∈ propagated_conflict
     ∧ ∀ l, l ∈ c → is_Some (assignments a' !! variable l) ∧ value a' l = false)
  ∧ (∃ a',
       unit_propagation (Formula_new sample_clauses) Assignments_new
       = Some ("unresolved", None, a')
       ∧ ∀ c, c ∈ sample_clauses → ¬ unit_clause a' c ∧ ¬ falsified a' c).
Proof.
  split.
  - destruct (unit_propagation_contract (Formula_new propagated_conflict)
                Assignments_new)
      as (reason & clause & a' & Hup & Hconflict & _).
    assert (Hreason : reason = "conflict").
    { vm_compute in Hup. by injection Hup. }
    destruct (Hconflict Hreason) as (c & -> & Hc & Hfalse). subst reason.
    by exists c, a'.
  - destruct (unit_propagation_contract (Formula_new sample_clauses)
                Assignments_new)
      as (reason & clause & a' & Hup & _ & Hunresolved).
    assert (Hreason : reason = "unresolved").
    { vm_compute in Hup. by injection Hup. }
    destruct (Hunresolved Hreason) as (-> & Hfix). subst reason.
    by exists a'.
Defined.

(** ** The formula and its variable set *)

Lemma elem_of_insert_clause_variables (c : Clause) (vars : gset Z) (v : Z) :
  v ∈ insert_clause_variables vars c ↔ v ∈ vars ∨ ∃ l, l ∈ c ∧ variable l = v.
Proof.
  unfold insert_clause_variables. revert vars.
  induction c as [|l c IH]; intros vars; simpl.
  - split; [by left | intros [? | (l & ?%elem_of_nil & _)]; done].
  - rewrite IH, elem_of_union, elem_of_singleton. split.
    + intros [[-> | ?] | (l' & ? & ?)].
      * right. exists l. split; [by left | done].
      * by left.
      * right. exists l'. split; [by right | done].
    + intros [? | (l' & [->|?]%elem_of_cons & ?)].
      * left. by right.
      * left. by left.
      * right. by exists l'.
Qed.

Lemma elem_of_fold_clause_variables (cls : list Clause) (vars : gset Z) (v : Z) :
  v ∈ foldl insert_clause_variables vars cls ↔ v ∈ vars ∨ occurs_in cls v.
Proof.
  revert vars. induction cls as [|c cls IH]; intros vars; simpl.
  - split; [by left | intros [? | (c & l & ?%elem_of_nil & _)]; done].
  - rewrite IH, elem_of_insert_clause_variables. split.
    + intros [[? | (l & ? & ?)] | (c' & l & ? & ? & ?)].
      * by left.
      * right. exists c, l. split_and!; [by left | done | done].
      * right. exists c', l. split_and!; [by right | done | done].
    + intros [? | (c' & l & [->|?]%elem_of_cons & ? & ?)].
      * left. by left.
      * left. right. by exists l.
      * right. by exists c', l.
Qed.

Lemma elem_of_Formula_new_variables (cls : list Clause) (v : Z) :
  v ∈ get_variables (Formula_new cls) ↔ occurs_in cls v.
Proof.
  unfold get_variables, Formula_new. simpl.
  rewrite elem_of_fold_clause_variables. split; [| by right].
  by intros [?%elem_of_empty | ?].
Qed.

Lemma grown_from_new (cls : list Clause) : grown_from cls (Formula_new cls).
Proof.
  split; [done |]. exists []. split; [by rewrite app_nil_r |].
  by intros c ?%elem_of_nil.
Qed.

Lemma grown_from_clause (cls : list Clause) (formula : Formula) (c : Clause) :
  grown_from cls formula → c ∈ clauses formula ↔ c ∈ cls.
Proof.
  intros (_ & learned & -> & Hl). rewrite elem_of_app. split; [| by left].
  intros [? | ?]; [done | by apply Hl].
Qed.

Lemma grown_from_push_back (cls : list Clause) (formula : Formula) (c : Clause) :
  grown_from cls formula → c ∈ clauses formula →
  grown_from cls (push_back formula c).
Proof.
  intros Hg Hc. pose proof Hg as (Hv & learned & Hcl & Hl).
  split; [done |]. exists (learned ++ [c]). simpl. split.
  - by rewrite Hcl, app_assoc.
  - intros c' [? | ->%list_elem_of_singleton]%elem_of_app; [by apply Hl |].
    by apply (grown_from_clause cls formula).
Qed.

Lemma grown_from_occurs (cls : list Clause) (formula : Formula) (v : Z) :
  grown_from cls formula → occurs_in (clauses formula) v →
  v ∈ get_variables formula.
Proof.
  intros Hg (c & l & Hc & Hl & Hv). unfold get_variables.
  apply (grown_from_clause cls formula c Hg) in Hc.
  destruct Hg as [-> _]. apply elem_of_Formula_new_variables.
  by exists c, l.
Qed.

(** ** Invariants of the driver *)

Lemma conflict_analysis_clause (c : Clause) (a : Assignments) :
  (conflict_analysis c a).2 = c.
Proof. unfold conflict_analysis. by destruct (dl a =? 0). Qed.

Lemma within_variables_extends cls formula a a' :
  grown_from cls formula → within_variables formula a →
  extends (clauses formula) a a' → within_variables formula a'.
Proof.
  intros Hg Hw (_ & _ & Hnew) v [? | ?]%Hnew; [by apply Hw |].
  by eapply grown_from_occurs.
Qed.

Lemma within_variables_backtrack formula a b d :
  within_variables formula a →
  within_variables formula (set_dl (backtrack a b) d).
Proof.
  intros Hw v Hv. apply Hw. unfold unassigned in *. simpl in Hv.
  rewrite backtrack_lookup in Hv. by destruct (assignments a !! v).
Qed.

(** The inner loop: the formula only grows by copies of its clauses; the
    loop is left by [break] on a trail within the formula's variables under
    which no clause is falsified. *)
Lemma propagate_loop_invariant (cls : list Clause) (rounds : nat) :
  ∀ formula a,
    grown_from cls formula → within_variables formula a →
    match propagate_loop rounds formula a with
    | Break formula' a' =>
        grown_from cls formula' ∧ within_variables formula' a'
        ∧ ∀ c, c ∈ clauses formula' → ¬ falsified a' c
    | ReturnNullopt formula' => grown_from cls formula'
    | InnerStuck => True
    end.
Proof.
  induction rounds as [|rounds IH]; intros formula a Hg Hw; [done |].
  simpl.
  destruct (unit_propagation_spec formula a)
    as (reason & clause & a' & -> & He & Hres).
  pose proof (within_variables_extends _ _ _ _ Hg Hw He) as Hw'.
  destruct Hres as [(-> & c & -> & Hc & Hf) | (-> & -> & Hfix)]; simpl.
  - pose proof (conflict_analysis_clause c a') as Hlc.
    destruct (conflict_analysis c a') as [b lc]. simpl in Hlc. subst lc.
    destruct (b <? 0); [done |].
    apply IH.
    + by apply grown_from_push_back.
    + by apply within_variables_backtrack.
  - split_and!; [done | done |]. intros c Hc. by destruct (Hfix c Hc).
Qed.

Lemma within_variables_decide formula a var val d :
  within_variables formula a → var ∈ get_variables formula →
  within_variables formula (assign (set_dl a d) var val None).
Proof.
  intros Hw Hvar v Hv. destruct (decide (v = var)) as [->|Hne]; [done |].
  apply Hw. unfold unassigned in *. simpl in Hv.
  by rewrite lookup_insert_ne in Hv.
Qed.

#[global] Arguments propagate_loop : simpl never.
#[global] Arguments unit_propagation : simpl never.

Section DriverInvariant.
Context {D : Type}.
Variable pick : D → Formula → Assignments → option (Z * bool).

(** All that the driver asks of the heuristic here: the variable it picks
    is one of the formula. *)
Hypothesis pick_in_variables :
  ∀ d formula a var val,
    pick d formula a = Some (var, val) → var ∈ get_variables formula.

Lemma cdcl_loop_invariant (cls : list Clause) (draws : list D) :
  ∀ formula a,
    grown_from cls formula → within_variables formula a →
    (∀ c, c ∈ clauses formula → ¬ falsified a c) →
    match cdcl_loop pick draws formula a with
    | Returned (Some a') formula' =>
        grown_from cls formula' ∧ within_variables formula' a'
        ∧ all_variables_assigned formula' a' = true
        ∧ ∀ c, c ∈ clauses formula' → ¬ falsified a' c
    | Returned None formula' => grown_from cls formula'
    | Unfinished formula' a' =>
        grown_from cls formula' ∧ within_variables formula' a'
    | Stuck => True
    end.
Proof.
  induction draws as [|d draws IH]; intros formula a Hg Hw Hfix; simpl;
    destruct (all_variables_assigned formula a) eqn:Hall; try done.
  destruct (pick d formula a) as [[var val]|] eqn:Hpick; [| done].
  apply pick_in_variables in Hpick.
  set (a1 := assign (set_dl a (dl a + 1)) var val None).
  assert (Hw1 : within_variables formula a1)
    by by apply within_variables_decide.
  pose proof (propagate_loop_invariant cls (S (Z.to_nat (dl a + 1))) formula a1
                Hg Hw1) as Hinner.
  destruct (propagate_loop (S (Z.to_nat (dl a + 1))) formula a1)
    as [formula' a'|formula'|]; [| done | done].
  destruct Hinner as (? & ? & ?). by apply IH.
Qed.

Lemma cdcl_solve_with_invariant (cls : list Clause) (draws : list D) :
  match cdcl_solve_with pick draws (Formula_new cls) with
  | Returned (Some a') formula' =>
      grown_from cls formula' ∧ within_variables formula' a'
      ∧ all_variables_assigned formula' a' = true
      ∧ ∀ c, c ∈ clauses formula' → ¬ falsified a' c
  | Returned None formula' => grown_from cls formula'
  | Unfinished formula' a' =>
      grown_from cls formula' ∧ within_variables formula' a'
  | Stuck => True
  end.
Proof.
  unfold cdcl_solve_with.
  destruct (unit_propagation_spec (Formula_new cls) Assignments_new)
    as (reason & clause & a' & -> & He & Hres).
  assert (Hw : within_variables (Formula_new cls) a').
  { eapply within_variables_extends; [apply grown_from_new | | done].
    intros v Hv. by destruct Hv. }
  destruct Hres as [(-> & _) | (-> & -> & Hfix)]; simpl.
  - apply grown_from_new.
  - apply cdcl_loop_invariant; [apply grown_from_new | done |].
    intros c Hc. by destruct (Hfix c Hc).
Qed.
End DriverInvariant.

(** ** The driver does not get stuck *)

Lemma propagate_loop_not_stuck (rounds : nat) :
  ∀ formula a,
    (Z.to_nat (dl a) < rounds)%nat →
    propagate_loop rounds formula a ≠ InnerStuck.
Proof.
  induction rounds as [|rounds IH]; intros formula a Hlt; [lia |].
  unfold propagate_loop; fold propagate_loop.
  destruct (unit_propagation_spec formula a)
    as (reason & clause & a' & -> & (Hdl & _) & Hres).
  destruct Hres as [(-> & c & -> & _) | (-> & -> & _)]; simpl; [| done].
  unfold conflict_analysis. rewrite Hdl.
  destruct (Z.eqb_spec (dl a) 0); simpl; [done |].
  destruct (Z.ltb_spec (dl a - 1) 0); [done |].
  apply IH. simpl. lia.
Qed.

Lemma all_variables_assigned_dom (formula : Formula) (a : Assignments) :
  within_variables formula a →
  all_variables_assigned formula a = true →
  dom (assignments a) = get_variables formula.
Proof.
  intros Hw Hall. apply bool_decide_eq_true in Hall.
  apply set_subseteq_size_eq.
  - intros v [e He]%elem_of_dom. apply Hw. unfold unassigned. congruence.
  - rewrite size_dom. unfold Assignments_size in Hall. lia.
Qed.

Lemma some_variable_unassigned (formula : Formula) (a : Assignments) :
  within_variables formula a →
  all_variables_assigned formula a = false →
  ∃ v, v ∈ get_variables formula ∧ unassigned a v.
Proof.
  intros Hw Hall. apply bool_decide_eq_false in Hall.
  assert (Hsub : dom (assignments a) ⊆ get_variables formula).
  { intros v [e He]%elem_of_dom. apply Hw. unfold unassigned. congruence. }
  pose proof (subseteq_size _ _ Hsub) as Hle.
  pose proof (size_difference _ _ Hsub) as Hdiff.
  rewrite size_dom in Hle, Hdiff. unfold Assignments_size in Hall.
  destruct (size_pos_elem_of (get_variables formula ∖ dom (assignments a)))
    as (v & [Hv Hnd]%elem_of_difference); [lia |].
  exists v. split; [done |]. by apply not_elem_of_dom.
Qed.

Lemma pick_branching_variable_unassigned draw formula a var val :
  pick_branching_variable draw formula a = Some (var, val) →
  var ∈ get_variables formula ∧ unassigned a var.
Proof.
  unfold pick_branching_variable. intros Hpick.
  apply bind_Some in Hpick as (v & Hlook & [= -> _]).
  apply list_elem_of_lookup_2, list_elem_of_filter in Hlook as [Hun Hin].
  split; [| done].
  rewrite merge_sort_Permutation in Hin. by apply elem_of_elements in Hin.
Qed.

Lemma pick_branching_variable_total draw formula a :
  within_variables formula a →
  all_variables_assigned formula a = false →
  is_Some (pick_branching_variable draw formula a).
Proof.
  intros Hw Hall.
  destruct (some_variable_unassigned formula a Hw Hall) as (v & Hv & Hun).
  unfold pick_branching_variable.
  set (unassigned_vars := filter _ _).
  assert (Hin : v ∈ unassigned_vars).
  { apply list_elem_of_filter. split; [done |].
    rewrite merge_sort_Permutation. by apply elem_of_elements. }
  assert (Hlen : (0 < length unassigned_vars)%nat).
  { destruct unassigned_vars; [by apply elem_of_nil in Hin | simpl; lia]. }
  destruct (lookup_lt_is_Some_2 unassigned_vars
              (draw.1 `mod` length unassigned_vars)%nat) as [var ->].
  { apply Nat.mod_upper_bound. lia. }
  by eexists.
Qed.

Section DriverProgress.
Context {D : Type}.
Variable pick : D → Formula → Assignments → option (Z * bool).

Hypothesis pick_in_variables :
  ∀ d formula a var val,
    pick d formula a = Some (var, val) → var ∈ get_variables formula.
Hypothesis pick_total :
  ∀ d formula a,
    within_variables formula a → all_variables_assigned formula a = false →
    is_Some (pick d formula a).

Lemma cdcl_loop_not_stuck (cls : list Clause) (draws : list D) :
  ∀ formula a,
    grown_from cls formula → within_variables formula a →
    cdcl_loop pick draws formula a ≠ Stuck.
Proof.
  induction draws as [|d draws IH]; intros formula a Hg Hw; simpl;
    destruct (all_variables_assigned formula a) eqn:Hall; try done.
  destruct (pick_total d formula a Hw Hall) as [[var val] Hpick].
  rewrite Hpick. apply pick_in_variables in Hpick.
  set (a1 := assign (set_dl a (dl a + 1)) var val None).
  assert (Hw1 : within_variables formula a1)
    by by apply within_variables_decide.
  pose proof (propagate_loop_invariant cls (S (Z.to_nat (dl a + 1))) formula a1
                Hg Hw1) as Hinner.
  pose proof (propagate_loop_not_stuck (S (Z.to_nat (dl a + 1))) formula a1)
    as Hns.
  destruct (propagate_loop (S (Z.to_nat (dl a + 1))) formula a1)
    as [formula' a'|formula'|]; [| done |].
  - destruct Hinner as (? & ? & ?). by apply IH.
  - exfalso. apply Hns; [simpl; lia | done].
Qed.

Lemma cdcl_solve_with_not_stuck (cls : list Clause) (draws : list D) :
  cdcl_solve_with pick draws (Formula_new cls) ≠ Stuck.
Proof.
  unfold cdcl_solve_with.
  destruct (unit_propagation_spec (Formula_new cls) Assignments_new)
    as (reason & clause & a' & -> & He & Hres).
  destruct (String.eqb reason "conflict"); [done |].
  apply (cdcl_loop_not_stuck cls); [apply grown_from_new |].
  eapply within_variables_extends; [apply grown_from_new | | done].
  intros v Hv. by destruct Hv.
Qed.
End DriverProgress.

(** With the source's heuristic the driver never leaves defined behaviour,
    and the loop bounds of the model are never hit: a run either returns
    or is still in its main loop when the draws run out. *)
Lemma cdcl_solve_not_stuck (draws : list (nat * bool)) (cls : list Clause) :
  cdcl_solve draws (Formula_new cls) ≠ Stuck.
Proof.
  apply cdcl_solve_with_not_stuck.
  - intros d formula a var val H.
    by apply pick_branching_variable_unassigned in H as [? _].
  - intros d formula a. apply pick_branching_variable_total.
Qed.

Lemma cdcl_solve_invariant (draws : list (nat * bool)) (cls : list Clause) :
  match cdcl_solve draws (Formula_new cls) with
  | Returned (Some a') formula' =>
      grown_from cls formula' ∧ within_variables formula' a'
      ∧ all_variables_assigned formula' a' = true
      ∧ ∀ c, c ∈ clauses formula' → ¬ falsified a' c
  | Returned None formula' => grown_from cls formula'
  | Unfinished formula' a' =>
      grown_from cls formula' ∧ within_variables formula' a'
  | Stuck => True
  end.
Proof.
  apply cdcl_solve_with_invariant.
  intros d formula a var val H.
  by apply pick_branching_variable_unassigned in H as [? _].
Qed.

(** ** The solve driver *)

Lemma unfalsified_assigned_clause (a : Assignments) (c : Clause) :
  (∀ l, l ∈ c → ¬ unassigned a (variable l)) →
  ¬ falsified a c →
  ∃ l, l ∈ c ∧ value a l = true.
Proof.
  intros Hall Hnf. induction c as [|l c IH].
  - exfalso. apply Hnf. constructor.
  - destruct (value a l) eqn:Hv.
    + exists l. split; [by left | done].
    + destruct IH as (l' & ? & ?).
      * intros l' ?. apply Hall. by right.
      * intros Hf. apply Hnf. constructor; [| done].
        split; [| done]. apply Hall. by left.
      * exists l'. split; [by right | done].
Qed.

Lemma satisfy_true_iff (a : Assignments) (formula : Formula) :
  satisfy a formula = true
  ↔ ∀ c, c ∈ clauses formula → ∃ l, l ∈ c ∧ value a l = true.
Proof.
  unfold satisfy, clause_satisfied. rewrite forallb_forall. split.
  - intros H c Hc%list_elem_of_In. apply H, existsb_exists in Hc as (l & Hl & Hv).
    exists l. by rewrite list_elem_of_In.
  - intros H c Hc%list_elem_of_In. destruct (H c Hc) as (l & Hl & Hv).
    apply existsb_exists. exists l. by rewrite <- list_elem_of_In.
Qed.

(** C1: an assignment returned by [cdcl_solve] satisfies the clause list the
    solver was called on: [satisfy] accepts it, that is, every original
    clause has a literal that [value] evaluates to true. *)
Theorem cdcl_solve_sound :
  ∀ (draws : list (nat * bool)) (cls : list Clause) (a : Assignments)
    (formula' : Formula),
    cdcl_solve draws (Formula_new cls) = Returned (Some a) formula' →
    satisfy a (Formula_new cls) = true
    ∧ ∀ c, c ∈ cls → ∃ l, l ∈ c ∧ value a l = true.
Proof.
  intros draws cls a formula' Hrun.
  pose proof (cdcl_solve_invariant draws cls) as Hinv. rewrite Hrun in Hinv.
  destruct Hinv as (Hg & Hw & Hall & Hfix).
  pose proof (all_variables_assigned_dom _ _ Hw Hall) as Hdom.
  assert (Hsat : ∀ c, c ∈ cls → ∃ l, l ∈ c ∧ value a l = true).
  { intros c Hc. apply unfalsified_assigned_clause.
    - intros l Hl Hun%not_elem_of_dom. apply Hun. rewrite Hdom.
      eapply grown_from_occurs; [done |].
      exists c, l. split_and!; [| done | done].
      by apply (grown_from_clause cls formula' c Hg).
    - apply Hfix. by apply (grown_from_clause cls formula' c Hg). }
  split; [| done]. by apply satisfy_true_iff.
Qed.

Lemma cdcl_solve_sound_witness :
  cdcl_solve sample_draws (Formula_new sample_clauses)
  = Returned (Some sample_trail) (Formula_new sample_clauses)
  ∧ satisfy sample_trail (Formula_new sample_clauses) = true.
Proof.
  assert (Hrun : cdcl_solve sample_draws (Formula_new sample_clauses)
                 = Returned (Some sample_trail) (Formula_new sample_clauses))
    by (vm_compute; reflexivity).
  split; [exact Hrun |].
  exact (proj1 (cdcl_solve_sound _ _ _ _ Hrun)).
Defined.

(** C2: the domain of a returned assignment is exactly the variable set of
    the formula: a variable has an entry if and only if it occurs in a
    clause, and the entries list every variable once. *)
Theorem cdcl_solve_total_on_sat :
  ∀ (draws : list (nat * bool)) (cls : list Clause) (a : Assignments)
    (formula' : Formula),
    cdcl_solve draws (Formula_new cls) = Returned (Some a) formula' →
    dom (assignments a) = get_variables (Formula_new cls)
    ∧ get_variables formula' = get_variables (Formula_new cls)
    ∧ (∀ v, is_Some (assignments a !! v) ↔ occurs_in cls v)
    ∧ NoDup (map_to_list (assignments a)).*1
    ∧ Assignments_size a = size (get_variables (Formula_new cls)).
Proof.
  intros draws cls a formula' Hrun.
  pose proof (cdcl_solve_invariant draws cls) as Hinv. rewrite Hrun in Hinv.
  destruct Hinv as (Hg & Hw & Hall & _).
  pose proof (all_variables_assigned_dom _ _ Hw Hall) as Hdom.
  assert (Hvars : get_variables formula' = get_variables (Formula_new cls))
    by apply Hg.
  split_and!.
  - congruence.
  - done.
  - intros v. rewrite <- elem_of_dom, Hdom, Hvars.
    apply elem_of_Formula_new_variables.
  - apply NoDup_fst_map_to_list.
  - unfold Assignments_size. by rewrite <- size_dom, Hdom, Hvars.
Qed.

Lemma cdcl_solve_total_on_sat_witness :
  dom (assignments sample_trail) = get_variables (Formula_new sample_clauses).
Proof.
  assert (Hrun : cdcl_solve sample_draws (Formula_new sample_clauses)
                 = Returned (Some sample_trail) (Formula_new sample_clauses))
    by (vm_compute; reflexivity).
  exact (proj1 (cdcl_solve_total_on_sat _ _ _ _ Hrun)).
Defined.

(** *** A conflict before the first decision *)

Lemma propagation_pass_empty_clause (cls : list Clause) :
  [] ∈ cls → ∀ a fin, ∃ c a', propagation_pass cls a fin = PassConflict c a'.
Proof.
  induction cls as [|c cls IH]; intros Hin a fin; [by apply elem_of_nil in Hin |].
  destruct (decide (c = [])) as [->|Hne].
  - by exists [], a.
  - apply elem_of_cons in Hin as [? | Hin]; [done |].
    destruct (propagation_pass_cons a c cls fin)
      as [(u & _ & _ & ->) | [(_ & ->) | (_ & _ & ->)]].
    + by apply IH.
    + by exists c, a.
    + by apply IH.
Qed.

Lemma unit_propagation_empty_clause (formula : Formula) (a : Assignments) :
  [] ∈ clauses formula →
  ∃ c a', unit_propagation formula a = Some ("conflict", Some c, a').
Proof.
  intros Hin. unfold unit_propagation, unit_propagation_loop.
  destruct (propagation_pass_empty_clause _ Hin a true) as (c & a' & ->).
  by exists c, a'.
Qed.

(** C5: when the propagation that precedes the main loop reports a conflict,
    [cdcl_solve] returns no assignment, whatever draws are supplied and so
    also with none, and leaves the formula as it was; a formula with an
    empty clause and the formula (1) ∧ (¬1) are such cases. *)
Theorem level0_conflict_unsat :
  (∀ (draws : list (nat * bool)) (cls : list Clause) clause a,
     unit_propagation (Formula_new cls) Assignments_new
     = Some ("conflict", clause, a) →
     cdcl_solve draws (Formula_new cls) = Returned None (Formula_new cls))
  ∧ (∀ (draws : list (nat * bool)) (cls : list Clause),
       [] ∈ cls → cdcl_solve draws (Formula_new cls) = Returned None (Formula_new cls))
  ∧ (∀ (draws : list (nat * bool)),
       cdcl_solve draws (Formula_new contradictory_units)
       = Returned None (Formula_new contradictory_units)).
Proof.
  assert (Hgen : ∀ (draws : list (nat * bool)) (cls : list Clause) clause a,
             unit_propagation (Formula_new cls) Assignments_new
             = Some ("conflict", clause, a) →
             cdcl_solve draws (Formula_new cls) = Returned None (Formula_new cls)).
  { intros draws cls clause a Hup. unfold cdcl_solve, cdcl_solve_with.
    by rewrite Hup. }
  split_and!.
  - exact Hgen.
  - intros draws cls Hin.
    destruct (unit_propagation_empty_clause (Formula_new cls) Assignments_new Hin)
      as (c & a' & Hup).
    by eapply Hgen.
  - intros draws. eapply Hgen. vm_compute. reflexivity.
Qed.

Lemma level0_conflict_unsat_witness :
  cdcl_solve [] (Formula_new propagated_conflict)
  = Returned None (Formula_new propagated_conflict)
  ∧ cdcl_solve [] (Formula_new (clauses_of_ints [[1; 2]; []]))
    = Returned None (Formula_new (clauses_of_ints [[1; 2]; []])).
Proof.
  split.
  - eapply (proj1 level0_conflict_unsat). vm_compute. reflexivity.
  - apply (proj1 (proj2 level0_conflict_unsat)). vm_compute.
    apply list_elem_of_further, list_elem_of_here.
Defined.

(** *** The clause database *)

(** C7: however a run ends, and also when the draws run out before it ends,
    the clause list of the formula is the original list followed by learned
    clauses: nothing was removed or changed, and the count did not drop. *)
Theorem clause_database_monotonic :
  ∀ (draws : list (nat * bool)) (cls : list Clause),
    match cdcl_solve draws (Formula_new cls) with
    | Returned _ formula' | Unfinished formula' _ =>
        ∃ learned, clauses formula' = cls ++ learned
                   ∧ (length cls ≤ length (clauses formula'))%nat
    | Stuck => False
    end.
Proof.
  intros draws cls.
  pose proof (cdcl_solve_invariant draws cls) as Hinv.
  pose proof (cdcl_solve_not_stuck draws cls) as Hns.
  assert (Hgrown : ∀ formula', grown_from cls formula' →
            ∃ learned, clauses formula' = cls ++ learned
                       ∧ (length cls ≤ length (clauses formula'))%nat).
  { intros formula' (_ & learned & Hcl & _). exists learned. split; [done |].
    rewrite Hcl, length_app. lia. }
  destruct (cdcl_solve draws (Formula_new cls)) as [[a|] formula'|formula' a|].
  - apply Hgrown, Hinv.
  - by apply Hgrown.
  - apply Hgrown, Hinv.
  - done.
Qed.

(** A run that learns: the clause (¬1 ∨ ¬2) is appended once. *)
Example learning_run :
  ∃ a, cdcl_solve learning_draws (Formula_new learning_clauses)
       = Returned (Some a)
           (mkFormula (learning_clauses ++ clauses_of_ints [[-1; -2]])
                      (get_variables (Formula_new learning_clauses))).
Proof. eexists. vm_compute. reflexivity. Qed.

(** *** Determinism modulo branching *)

Section MoreDraws.
Context {D : Type}.
Variable pick : D → Formula → Assignments → option (Z * bool).

(** A run that ended consumed a prefix of its draws: further draws do not
    change its outcome. *)
Lemma cdcl_loop_more_draws (draws extra : list D) :
  ∀ formula a,
    finished (cdcl_loop pick draws formula a) →
    cdcl_loop pick (draws ++ extra) formula a = cdcl_loop pick draws formula a.
Proof.
  induction draws as [|d draws IH]; intros formula a.
  - simpl. destruct (all_variables_assigned formula a) eqn:Hall; [| done].
    intros _. destruct extra; simpl; by rewrite Hall.
  - simpl. destruct (all_variables_assigned formula a); [done |].
    destruct (pick d formula a) as [[var val]|]; [| done].
    destruct (propagate_loop _ _ _); [apply IH | done | done].
Qed.

Lemma cdcl_solve_with_more_draws (draws extra : list D) (formula : Formula) :
  finished (cdcl_solve_with pick draws formula) →
  cdcl_solve_with pick (draws ++ extra) formula
  = cdcl_solve_with pick draws formula.
Proof.
  unfold cdcl_solve_with.
  destruct (unit_propagation formula Assignments_new) as [[[reason clause] a]|];
    [| done].
  destruct (String.eqb reason "conflict"); [done |].
  apply cdcl_loop_more_draws.
Qed.
End MoreDraws.

Lemma cdcl_solve_policy_le policy formula (n m : nat) :
  (n ≤ m)%nat →
  finished (cdcl_solve_policy policy n formula) →
  cdcl_solve_policy policy m formula = cdcl_solve_policy policy n formula.
Proof.
  intros Hle Hfin. unfold cdcl_solve_policy in *.
  replace m with (n + (m - n))%nat by lia.
  rewrite replicate_add. by apply cdcl_solve_with_more_draws.
Qed.

(** The number of decisions a run is allowed is a bound of the model only: a
    run under a policy that came to an end has the same outcome under every
    bound under which it comes to an end, and a finished run of the source's
    heuristic is unchanged by further draws. *)
Lemma finished_run_ignores_bound :
  (∀ (policy : Formula → Assignments → option (Z * bool)) (formula : Formula)
     (n m : nat),
     finished (cdcl_solve_policy policy n formula) →
     finished (cdcl_solve_policy policy m formula) →
     cdcl_solve_policy policy n formula = cdcl_solve_policy policy m formula)
  ∧ (∀ (draws extra : list (nat * bool)) (formula : Formula),
       finished (cdcl_solve draws formula) →
       cdcl_solve (draws ++ extra) formula = cdcl_solve draws formula).
Proof.
  split.
  - intros policy formula n m Hn Hm.
    destruct (Nat.le_ge_cases n m) as [Hle | Hle].
    + symmetry. by apply cdcl_solve_policy_le.
    + by apply cdcl_solve_policy_le.
  - intros draws extra formula. apply cdcl_solve_with_more_draws.
Qed.

(** ** Scenarios *)

(** The single clause (1): satisfiable without a decision, 1 = true. *)
Example scenario_unit_clause :
  ∃ a, cdcl_solve [] (Formula_new (clauses_of_ints [[1]]))
       = Returned (Some a) (Formula_new (clauses_of_ints [[1]]))
       ∧ a_value <$> assignments a !! 1 = Some true.
Proof. eexists. split; vm_compute; reflexivity. Qed.

(** (1 ∨ 2) alone: either first decision leads to a satisfying trail. *)
Example scenario_one_binary_clause :
  ∃ a1 a2,
    cdcl_solve [(0%nat, true); (0%nat, false)] (Formula_new (clauses_of_ints [[1; 2]]))
    = Returned (Some a1) (Formula_new (clauses_of_ints [[1; 2]]))
    ∧ cdcl_solve [(0%nat, false)] (Formula_new (clauses_of_ints [[1; 2]]))
      = Returned (Some a2) (Formula_new (clauses_of_ints [[1; 2]]))
    ∧ value a1 (Literal_of_int 1) = true ∧ value a1 (Literal_of_int 2) = false
    ∧ value a2 (Literal_of_int 1) = false ∧ value a2 (Literal_of_int 2) = true.
Proof. do 2 eexists. split_and!; vm_compute; reflexivity. Qed.

(** The empty formula: satisfiable with the empty trail. *)
Example scenario_empty_formula :
  cdcl_solve [] (Formula_new []) = Returned (Some Assignments_new) (Formula_new []).
Proof. vm_compute. reflexivity. Qed.

(** * Further properties of the code *)

(** ** Literals and the formula constructor *)

(** [Literal::neg] flips the polarity and nothing else; negating twice gives
    the literal back, and no literal is its own negation. *)
Theorem neg_involutive :
  ∀ l : Literal,
    neg (neg l) = l ∧ neg l ≠ l ∧ variable (neg l) = variable l.
Proof.
  intros [v n]. unfold neg. simpl. split_and!.
  - by rewrite negb_involutive.
  - intros [= H]. by destruct n.
  - done.
Qed.

(** The constructor of [Formula] collects exactly the variables that occur
    in some literal of some clause; learning by [push_back] leaves the set
    as it is. *)
Theorem Formula_variables_exact :
  ∀ (cls : list Clause) (v : Z),
    (v ∈ get_variables (Formula_new cls)
     ↔ ∃ c l, c ∈ cls ∧ l ∈ c ∧ variable l = v)
    ∧ ∀ c, get_variables (push_back (Formula_new cls) c)
           = get_variables (Formula_new cls).
Proof.
  intros cls v. split; [apply elem_of_Formula_new_variables | done].
Qed.

(** ** The trail: assign, unassign, value, satisfy *)

Lemma value_assign_same (a : Assignments) (l : Literal) (val : bool) ante :
  value (assign a (variable l) val ante) l
  = if negation l then negb val else val.
Proof. unfold value, assign. simpl. by rewrite lookup_insert_eq. Qed.

Lemma value_assign_other (a : Assignments) (l : Literal) (var : Z) (val : bool)
    ante :
  variable l ≠ var → value (assign a var val ante) l = value a l.
Proof.
  intros Hne. unfold value, assign. simpl. by rewrite lookup_insert_ne.
Qed.

(** After [assign var val ante] the positive literal of [var] evaluates to
    [val] and the negative one to its negation; the entry carries the
    current decision level and the antecedent; every other variable is
    untouched; a second [assign] of the same variable overwrites the first. *)
Theorem assign_then_value :
  ∀ (a : Assignments) (var : Z) (val : bool) (ante : option Clause),
    value (assign a var val ante) (mkLiteral var false) = val
    ∧ value (assign a var val ante) (mkLiteral var true) = negb val
    ∧ assignments (assign a var val ante) !! var
      = Some (mkAssignment val ante (dl a))
    ∧ (∀ l, variable l ≠ var → value (assign a var val ante) l = value a l)
    ∧ (∀ val' ante',
         assign (assign a var val ante) var val' ante' = assign a var val' ante').
Proof.
  intros a var val ante. split_and!.
  - apply (value_assign_same a (mkLiteral var false)).
  - apply (value_assign_same a (mkLiteral var true)).
  - unfold assign. simpl. by rewrite lookup_insert_eq.
  - intros l Hne. by apply value_assign_other.
  - intros val' ante'. unfold assign. simpl. by rewrite insert_insert_eq.
Qed.

Lemma assign_then_value_witness :
  value (assign sample_trail 9 true None) (Literal_of_int 4)
  = value sample_trail (Literal_of_int 4).
Proof.
  apply (proj1 (proj2 (proj2 (proj2
           (assign_then_value sample_trail 9 true None))))).
  vm_compute. discriminate.
Defined.

(** [unassign] removes the entry: both literals of the variable evaluate to
    false afterwards.  It undoes an [assign] of a variable that had no entry,
    it is a no-op on a variable without entry, and it lowers [size] by one
    on a variable with an entry. *)
Theorem unassign_round_trip :
  ∀ (a : Assignments) (var : Z),
    (∀ l, variable l = var → value (unassign a var) l = false)
    ∧ (unassigned a var →
       ∀ val ante, unassign (assign a var val ante) var = a)
    ∧ (unassigned a var → unassign a var = a)
    ∧ (¬ unassigned a var →
       S (Assignments_size (unassign a var)) = Assignments_size a).
Proof.
  intros a var. unfold unassigned. split_and!.
  - intros l <-. unfold value, unassign. simpl. by rewrite lookup_delete_eq.
  - intros Hnone val ante. destruct a as [m d]. unfold unassign, assign. simpl in *.
    f_equal. rewrite delete_insert_eq. by apply delete_id.
  - intros Hnone. destruct a as [m d]. unfold unassign. simpl in *.
    f_equal. by apply delete_id.
  - intros Hsome. unfold Assignments_size, unassign. simpl.
    destruct (assignments a !! var) as [e|] eqn:He; [| done].
    rewrite <- (insert_delete_id (assignments a) var e He) at 2.
    by rewrite map_size_insert_None by apply lookup_delete_eq.
Qed.

Lemma unassign_round_trip_witness :
  unassign (assign sample_trail 9 true None) 9 = sample_trail
  ∧ S (Assignments_size (unassign sample_trail 4)) = Assignments_size sample_trail.
Proof.
  pose proof (unassign_round_trip sample_trail 9) as (_ & Hundo & _ & _).
  pose proof (unassign_round_trip sample_trail 4) as (_ & _ & _ & Hsize).
  split.
  - apply Hundo. vm_compute. reflexivity.
  - apply Hsize. vm_compute. discriminate.
Defined.

(** [satisfy] accepts exactly the trails under which every clause has a
    literal evaluating to true; so it accepts every trail on the empty
    formula and none on a formula with an empty clause. *)
Theorem satisfy_characterised :
  ∀ (a : Assignments) (formula : Formula),
    (satisfy a formula = true
     ↔ ∀ c, c ∈ clauses formula → ∃ l, l ∈ c ∧ value a l = true)
    ∧ (clauses formula = [] → satisfy a formula = true)
    ∧ ([] ∈ clauses formula → satisfy a formula = false).
Proof.
  intros a formula. split_and!.
  - apply satisfy_true_iff.
  - intros H. unfold satisfy. by rewrite H.
  - intros Hin. apply not_true_is_false. intros Hsat.
    destruct (proj1 (satisfy_true_iff a formula) Hsat [] Hin) as (l & Hl & _).
    by apply elem_of_nil in Hl.
Qed.

Lemma satisfy_characterised_witness :
  satisfy sample_trail (Formula_new (clauses_of_ints [[1; 2]; []])) = false.
Proof.
  apply (proj2 (proj2 (satisfy_characterised sample_trail
                         (Formula_new (clauses_of_ints [[1; 2]; []]))))).
  vm_compute. apply list_elem_of_further, list_elem_of_here.
Defined.

(** ** The branching heuristic *)

Lemma elem_of_unassigned_vars (formula : Formula) (a : Assignments) (v : Z) :
  v ∈ filter (unassigned a) (merge_sort Z.le (elements (get_variables formula)))
  ↔ v ∈ get_variables formula ∧ unassigned a v.
Proof.
  rewrite list_elem_of_filter, merge_sort_Permutation, elem_of_elements.
  tauto.
Qed.

(** [pick_branching_variable] answers with a variable of the formula that has
    no trail entry and with the value drawn; it has an answer exactly when
    some variable of the formula is unassigned; and every unassigned
    variable, with either value, is the answer for some draw. *)
Theorem pick_branching_variable_contract :
  ∀ (formula : Formula) (a : Assignments),
    (∀ draw var val,
       pick_branching_variable draw formula a = Some (var, val) →
       var ∈ get_variables formula ∧ unassigned a var ∧ val = draw.2)
    ∧ (∀ draw,
         is_Some (pick_branching_variable draw formula a)
         ↔ ∃ v, v ∈ get_variables formula ∧ unassigned a v)
    ∧ (∀ v val,
         v ∈ get_variables formula → unassigned a v →
         ∃ draw, pick_branching_variable draw formula a = Some (v, val)).
Proof.
  intros formula a. split_and!.
  - intros draw var val Hpick.
    pose proof (pick_branching_variable_unassigned _ _ _ _ _ Hpick) as [? ?].
    unfold pick_branching_variable in Hpick.
    apply bind_Some in Hpick as (? & _ & [= _ <-]). done.
  - intros draw. split.
    + intros [[var val] Hpick]. exists var.
      by apply pick_branching_variable_unassigned in Hpick.
    + intros (v & Hv%elem_of_unassigned_vars). revert Hv.
      unfold pick_branching_variable.
      generalize (filter (unassigned a)
                    (merge_sort Z.le (elements (get_variables formula)))).
      intros vars Hv.
      destruct (lookup_lt_is_Some_2 vars (draw.1 `mod` length vars)%nat)
        as [var ->]; [| by eexists].
      apply Nat.mod_upper_bound. destruct vars; [by apply elem_of_nil in Hv |].
      simpl. lia.
  - intros v val Hv Hun.
    assert (Hin : v ∈ filter (unassigned a)
                    (merge_sort Z.le (elements (get_variables formula))))
      by by apply elem_of_unassigned_vars.
    apply list_elem_of_lookup_1 in Hin as [i Hi].
    exists (i, val). unfold pick_branching_variable. simpl.
    rewrite Nat.mod_small by (by eapply lookup_lt_Some).
    by rewrite Hi.
Qed.

Lemma pick_branching_variable_contract_witness :
  ∃ draw,
    pick_branching_variable draw (Formula_new sample_clauses) Assignments_new
    = Some (3, false).
Proof.
  apply (proj2 (proj2 (pick_branching_variable_contract
                         (Formula_new sample_clauses) Assignments_new))).
  - vm_compute. reflexivity.
  - vm_compute. reflexivity.
Defined.

(** ** Unit propagation: what it adds to the trail *)

Lemma scan_literals_one_unassigned a lits fc ul fc' u :
  scan_literals a lits fc ul = (fc', Some u, false) →
  fc' + 1 = fc + Z.of_nat (length lits) →
  ∃ before after,
    lits = before ++ u :: after
    ∧ unassigned a (variable u)
    ∧ falsified a (before ++ after).
Proof.
  revert fc ul. induction lits as [|l lits IH]; intros fc ul; simpl.
  - intros [= <- _] ?. lia.
  - destruct (decide (unassigned a (variable l))) as [Hu|Ha].
    + intros Hscan Hcount.
      pose proof Hscan as (_ & _ & Hall & Hul)%scan_literals_unsatisfied.
      assert (Hf : falsified a lits) by (apply Hall; lia).
      exists [], lits. simpl. destruct Hul as [[= ->] | (u' & [= <-] & Hin & Hun)].
      * done.
      * eapply Forall_forall in Hf as [Hf _]; [| done]. done.
    + destruct (value a l) eqn:Hv; [done |].
      intros Hscan Hcount.
      destruct (IH _ _ Hscan) as (before & after & -> & Hun & Hf); [lia |].
      exists (l :: before), after. split_and!; [done | done |].
      simpl. by constructor.
Qed.

(** The three things the loop over the clauses can do with a clause, with
    the unit case spelled out. *)
Lemma propagation_pass_cases (a : Assignments) (c : Clause) (rest : list Clause)
    (fin : bool) :
  (∃ before u after,
      c = before ++ u :: after ∧ unassigned a (variable u)
      ∧ falsified a (before ++ after)
      ∧ propagation_pass (c :: rest) a fin
        = propagation_pass rest
            (assign a (variable u) (negb (negation u)) (Some c)) false)
  ∨ (falsified a c ∧ propagation_pass (c :: rest) a fin = PassConflict c a)
  ∨ (¬ falsified a c ∧ ¬ unit_clause a c
     ∧ propagation_pass (c :: rest) a fin = propagation_pass rest a fin).
Proof.
  simpl. destruct (scan_literals a c 0 None) as [[fc ul] sat] eqn:Hscan.
  destruct sat.
  - right; right.
    apply scan_literals_satisfied in Hscan as (l & Hl & Hv).
    split_and!; [| | done].
    + intros Hf. eapply Forall_forall in Hf as [_ Hf]; [| done]. congruence.
    + intros (before & u & after & -> & Hu & [Hb Hafter]%Forall_app).
      apply elem_of_app in Hl as [Hl | [-> | Hl]%elem_of_cons].
      * eapply Forall_forall in Hb as [_ ?]; [| done]. congruence.
      * by apply value_true_assigned in Hv.
      * eapply Forall_forall in Hafter as [_ ?]; [| done]. congruence.
  - destruct (Z.eqb_spec fc (size_minus_one c)) as [Heq|Hne].
    + destruct ul as [u|].
      * left. destruct c as [|l c].
        { simpl in Hscan. congruence. }
        rewrite size_minus_one_cons in Heq.
        destruct (scan_literals_one_unassigned _ _ _ _ _ _ Hscan)
          as (before & after & Hc & Hun & Hf); [simpl length; lia |].
        exists before, u, after. by rewrite <- Hc.
      * right. pose proof Hscan as (_ & _ & Hall & _)%scan_literals_unsatisfied.
        destruct (Z.eqb_spec fc (Z.of_nat (length c))) as [Hlen|Hlen].
        -- left. split; [| done]. apply Hall. lia.
        -- right. split_and!; [| | done].
           ++ intros Hf%scan_literals_falsified. congruence.
           ++ intros (before & u & after & -> & Hu & Hf).
              rewrite scan_literals_unit in Hscan by done. congruence.
    + right. pose proof Hscan as (_ & _ & Hall & _)%scan_literals_unsatisfied.
      destruct (Z.eqb_spec fc (Z.of_nat (length c))) as [Hlen|Hlen].
      * left. split; [| done]. apply Hall. lia.
      * right. split_and!; [| | done].
        -- intros Hf%scan_literals_falsified. congruence.
        -- intros (before & u & after & -> & Hu & Hf).
           rewrite scan_literals_unit in Hscan by done.
           injection Hscan as <- <-.
           by rewrite size_minus_one_middle in Hne.
Qed.

Lemma literal_false_assign (a : Assignments) (l : Literal) (x : Z) val ante :
  literal_false a l → unassigned a x → literal_false (assign a x val ante) l.
Proof.
  intros [Ha Hv] Hx.
  assert (Hne : variable l ≠ x) by (intros Heq; by rewrite Heq in Ha).
  split; [| by rewrite value_assign_other].
  unfold unassigned in *. simpl. by rewrite lookup_insert_ne.
Qed.

Lemma falsified_assign (a : Assignments) (c : Clause) (x : Z) val ante :
  falsified a c → unassigned a x → falsified (assign a x val ante) c.
Proof.
  intros Hf Hx. eapply Forall_impl; [done |].
  intros l Hl. by apply literal_false_assign.
Qed.

Lemma forced_by_assign (a : Assignments) (v : Z) (c : Clause) (x : Z) val ante :
  forced_by a v c → unassigned a x → forced_by (assign a x val ante) v c.
Proof.
  intros (before & u & after & -> & <- & Hv & Hf) Hx.
  exists before, u, after. split_and!; [done | done | | by apply falsified_assign].
  rewrite value_assign_other; [done |].
  intros <-. by apply value_true_assigned in Hv.
Qed.

Lemma value_forced_literal (a : Assignments) (u : Literal) ante :
  value (assign a (variable u) (negb (negation u)) ante) u = true.
Proof. rewrite value_assign_same. by destruct (negation u). Qed.

Section PropagationInvariant.
(** A property of the trail that every forced assignment of a unit clause of
    [cls] preserves is preserved by a pass and by the loop of passes. *)
Variable cls : list Clause.
Variable P : Assignments → Prop.
Hypothesis P_forced :
  ∀ a c before u after,
    P a → c ∈ cls → c = before ++ u :: after →
    unassigned a (variable u) → falsified a (before ++ after) →
    P (assign a (variable u) (negb (negation u)) (Some c)).

Lemma propagation_pass_preserves (todo : list Clause) :
  (∀ c, c ∈ todo → c ∈ cls) →
  ∀ a fin, P a →
    match propagation_pass todo a fin with
    | PassConflict _ a' | PassDone a' _ => P a'
    end.
Proof.
  induction todo as [|c todo IH]; intros Hsub a fin HP; [done |].
  assert (Hc : c ∈ cls) by (apply Hsub; by left).
  assert (Hsub' : ∀ c', c' ∈ todo → c' ∈ cls) by (intros; apply Hsub; by right).
  destruct (propagation_pass_cases a c todo fin)
    as [(before & u & after & Heq & Hun & Hf & ->) | [(_ & ->) | (_ & _ & ->)]].
  - apply IH; [done |]. by eapply P_forced.
  - done.
  - by apply IH.
Qed.

Lemma unit_propagation_loop_preserves (formula : Formula) (passes : nat) :
  (∀ c, c ∈ clauses formula → c ∈ cls) →
  ∀ a, P a →
    match unit_propagation_loop passes formula a with
    | Some (_, _, a') => P a'
    | None => True
    end.
Proof.
  intros Hsub. induction passes as [|passes IH]; intros a HP; [done |].
  simpl.
  pose proof (propagation_pass_preserves (clauses formula) Hsub a true HP) as Hp.
  destruct (propagation_pass (clauses formula) a true) as [c a'|a' [|]];
    [done | done |].
  by apply IH.
Qed.
End PropagationInvariant.

Lemma unit_propagation_preserves (P : Assignments → Prop) (formula : Formula) :
  (∀ a c before u after,
     P a → c ∈ clauses formula → c = before ++ u :: after →
     unassigned a (variable u) → falsified a (before ++ after) →
     P (assign a (variable u) (negb (negation u)) (Some c))) →
  ∀ a reason clause a',
    P a → unit_propagation formula a = Some (reason, clause, a') → P a'.
Proof.
  intros Hstep a reason clause a' HP Hup.
  pose proof (unit_propagation_loop_preserves (clauses formula) P Hstep formula
                (S (unassigned_occurrences (clauses formula) a))
                (λ _ H, H) a HP) as Hloop.
  unfold unit_propagation in Hup. by rewrite Hup in Hloop.
Qed.

Lemma unit_propagation_added (formula : Formula) (a : Assignments)
    reason clause a' :
  unit_propagation formula a = Some (reason, clause, a') →
  added_by_propagation (clauses formula) a a'.
Proof.
  apply (unit_propagation_preserves (added_by_propagation (clauses formula) a)).
  - intros a1 c before u after (Hdl & Hsub & Hnew) Hc Heq Hun Hf.
    split_and!.
    + done.
    + etrans; [done |]. by apply insert_subseteq.
    + intros v e Hv Hnone. simpl in Hv.
      destruct (decide (v = variable u)) as [->|Hne].
      * rewrite lookup_insert_eq in Hv. injection Hv as <-. simpl.
        split; [done |]. exists c. split_and!; [done | done |].
        exists before, u, after. split_and!; [done | done | |].
        -- apply value_forced_literal.
        -- by apply falsified_assign.
      * rewrite lookup_insert_ne in Hv by done.
        destruct (Hnew v e Hv Hnone) as (? & c' & ? & ? & ?).
        split; [done |]. exists c'. split_and!; [done | done |].
        by apply forced_by_assign.
  - split_and!; [done | done |]. intros v e Hv Hnone. congruence.
Qed.

(** A call of [unit_propagation] leaves [dl] and every entry of the trail as
    they were; each entry it adds carries the level [dl] and, as antecedent,
    a clause of the formula in which the literal of that variable is true
    and every other literal is false under the trail returned. *)
Theorem unit_propagation_entries_forced :
  ∀ (formula : Formula) (a : Assignments) reason clause a',
    unit_propagation formula a = Some (reason, clause, a') →
    dl a' = dl a
    ∧ (∀ v e, assignments a !! v = Some e → assignments a' !! v = Some e)
    ∧ (∀ v e, assignments a' !! v = Some e → assignments a !! v = None →
         a_dl e = dl a
         ∧ ∃ c, antecedent e = Some c ∧ c ∈ clauses formula ∧ forced_by a' v c).
Proof.
  intros formula a reason clause a' (Hdl & Hsub & Hnew)%unit_propagation_added.
  split_and!; [done | | done].
  intros v e Hv. by eapply lookup_weaken.
Qed.

Lemma unit_propagation_entries_forced_witness :
  ∃ c, c ∈ unit_chain ∧ forced_by unit_chain_trail 2 c.
Proof.
  assert (Hup : unit_propagation (Formula_new unit_chain) Assignments_new
                = Some ("unresolved", None, unit_chain_trail))
    by (vm_compute; reflexivity).
  destruct (unit_propagation_entries_forced _ _ _ _ _ Hup) as (_ & _ & Hnew).
  destruct (Hnew 2 (mkAssignment true (unit_chain !! 1%nat) 0))
    as (_ & c & _ & Hc & Hforced); [vm_compute; reflexivity .. |].
  by exists c.
Defined.

(** ** Unit propagation and the models of the formula *)

Lemma agrees_value (M : Z → bool) (a : Assignments) (l : Literal) :
  agrees M a → ¬ unassigned a (variable l) → value a l = literal_true M l.
Proof.
  intros Hag Ha. unfold value, literal_true, unassigned in *.
  destruct (assignments a !! variable l) as [e|] eqn:He; [| done].
  by rewrite (Hag _ _ He).
Qed.

Lemma agrees_falsified (M : Z → bool) (a : Assignments) (c : Clause) :
  agrees M a → falsified a c → ∀ l, l ∈ c → literal_true M l = false.
Proof.
  intros Hag Hf l Hl. eapply Forall_forall in Hf as [Ha Hv]; [| done].
  by rewrite <- (agrees_value M a l).
Qed.

Lemma agrees_forced (M : Z → bool) (cls : list Clause) (a : Assignments)
    c before u after :
  models M cls → agrees M a → c ∈ cls → c = before ++ u :: after →
  falsified a (before ++ after) →
  agrees M (assign a (variable u) (negb (negation u)) (Some c)).
Proof.
  intros Hm Hag Hc -> Hf v e Hv. simpl in Hv.
  destruct (decide (v = variable u)) as [->|Hne].
  - rewrite lookup_insert_eq in Hv. injection Hv as <-. simpl.
    destruct (Hm _ Hc) as (l & Hl & Htrue).
    assert (l = u) as ->.
    { apply elem_of_app in Hl as [Hl | [-> | Hl]%elem_of_cons]; [| done |].
      - rewrite (agrees_falsified M a _ Hag Hf l) in Htrue; [done |].
        apply elem_of_app. by left.
      - rewrite (agrees_falsified M a _ Hag Hf l) in Htrue; [done |].
        apply elem_of_app. by right. }
    unfold literal_true in Htrue. destruct (negation u); [| done].
    by apply negb_true_iff in Htrue.
  - rewrite lookup_insert_ne in Hv by done. by apply Hag.
Qed.

Lemma unit_propagation_agrees (M : Z → bool) (formula : Formula)
    (a : Assignments) reason clause a' :
  models M (clauses formula) → agrees M a →
  unit_propagation formula a = Some (reason, clause, a') →
  agrees M a' ∧ reason = "unresolved".
Proof.
  intros Hm Hag Hup.
  assert (Hag' : agrees M a').
  { revert Hag Hup. apply (unit_propagation_preserves (agrees M)).
    intros a1 c before u after Hag1 Hc Heq _ Hf. by eapply agrees_forced. }
  split; [done |].
  destruct (unit_propagation_spec formula a)
    as (reason' & clause' & a'' & Hup' & _ & Hres).
  rewrite Hup in Hup'. injection Hup' as <- <- <-.
  destruct Hres as [(_ & c & _ & Hc & Hf) | (-> & _)]; [| done].
  exfalso. destruct (Hm c Hc) as (l & Hl & Htrue).
  by rewrite (agrees_falsified M a' c Hag' Hf l Hl) in Htrue.
Qed.

(** Unit propagation keeps every model: a valuation that satisfies all
    clauses of the formula and agrees with the trail agrees with the trail
    returned, and the call does not report a conflict.  So a conflict from
    the empty trail shows that no valuation satisfies the formula. *)
Theorem unit_propagation_keeps_models :
  ∀ (formula : Formula) (a : Assignments) reason clause a',
    unit_propagation formula a = Some (reason, clause, a') →
    (∀ M, models M (clauses formula) → agrees M a →
          agrees M a' ∧ reason = "unresolved")
    ∧ (reason = "conflict" → a = Assignments_new →
       ¬ satisfiable (clauses formula)).
Proof.
  intros formula a reason clause a' Hup. split.
  - intros M Hm Hag. by eapply unit_propagation_agrees.
  - intros -> -> [M Hm].
    assert (Hag : agrees M Assignments_new).
    { intros v e Hv. simpl in Hv. by rewrite lookup_empty in Hv. }
    by destruct (unit_propagation_agrees M _ _ _ _ _ Hm Hag Hup) as [_ [=]].
Qed.

Lemma unit_propagation_keeps_models_witness :
  ¬ satisfiable propagated_conflict.
Proof.
  destruct (unit_propagation (Formula_new propagated_conflict) Assignments_new)
    as [[[reason clause] a']|] eqn:Hup; [| by vm_compute in Hup].
  apply (proj2 (unit_propagation_keeps_models _ _ _ _ _ Hup)); [| reflexivity].
  vm_compute in Hup. by injection Hup as <- _ _.
Defined.

(** ** Unit propagation: fixed points *)

Lemma propagation_pass_fixpoint (todo : list Clause) (a : Assignments) (fin : bool) :
  propagation_fixpoint todo a → propagation_pass todo a fin = PassDone a fin.
Proof.
  induction todo as [|c todo IH]; intros Hfix; [done |].
  destruct (Hfix c) as [Hnf Hnu]; [by left |].
  destruct (propagation_pass_cases a c todo fin)
    as [(before & u & after & Heq & Hun & Hf & _) | [(Hf & _) | (_ & _ & ->)]].
  - exfalso. apply Hnu. by exists before, u, after.
  - done.
  - apply IH. intros c' Hc'. apply Hfix. by right.
Qed.

Lemma unit_propagation_fixpoint (formula : Formula) (a : Assignments) :
  propagation_fixpoint (clauses formula) a →
  unit_propagation formula a = Some ("unresolved", None, a).
Proof.
  intros Hfix. unfold unit_propagation, unit_propagation_loop.
  by rewrite propagation_pass_fixpoint.
Qed.

Lemma propagation_pass_conflict (todo : list Clause) (c : Clause) :
  c ∈ todo → ∀ a fin, falsified a c →
  ∃ c' a', propagation_pass todo a fin = PassConflict c' a'.
Proof.
  induction todo as [|c0 todo IH]; intros Hin a fin Hf;
    [by apply elem_of_nil in Hin |].
  destruct (propagation_pass_cases a c0 todo fin)
    as [(before & u & after & Heq & Hun & _ & ->) | [(_ & ->) | (Hnf & _ & ->)]].
  - apply elem_of_cons in Hin as [-> | Hin].
    + exfalso. eapply Forall_forall in Hf as [Hf _]; [by apply Hf |].
      rewrite Heq, elem_of_app. right. by left.
    + apply IH; [done |]. by apply falsified_assign.
  - by exists c0, a.
  - apply elem_of_cons in Hin as [-> | Hin]; [done |]. by apply IH.
Qed.

(** Called again on the trail it returned, [unit_propagation] gives the same
    verdict: after "unresolved" the second call returns that trail as it
    is; after "conflict" the second call reports a conflict again.  It
    returns "unresolved" without changing the trail exactly on the trails
    under which no clause is falsified or unit. *)
Theorem unit_propagation_idempotent :
  ∀ (formula : Formula) (a : Assignments) reason clause a',
    unit_propagation formula a = Some (reason, clause, a') →
    (reason = "unresolved" →
     unit_propagation formula a' = Some ("unresolved", None, a'))
    ∧ (reason = "conflict" →
       ∃ c'' a'', unit_propagation formula a' = Some ("conflict", Some c'', a''))
    ∧ (unit_propagation formula a = Some ("unresolved", None, a)
       ↔ propagation_fixpoint (clauses formula) a).
Proof.
  intros formula a reason clause a' Hup.
  destruct (unit_propagation_spec formula a)
    as (reason' & clause' & a'' & Hup' & _ & Hres).
  rewrite Hup in Hup'. injection Hup' as <- <- <-.
  split_and!.
  - intros ->. destruct Hres as [([=] & _) | (_ & _ & Hfix)].
    by apply unit_propagation_fixpoint.
  - intros ->. destruct Hres as [(_ & c & _ & Hc & Hf) | ([=] & _)].
    unfold unit_propagation, unit_propagation_loop.
    destruct (propagation_pass_conflict _ c Hc a' true Hf) as (c' & a'' & ->).
    by exists c', a''.
  - split.
    + intros Hfixed.
      destruct (unit_propagation_spec formula a)
        as (r & cl & a2 & Hup2 & _ & Hres2).
      rewrite Hfixed in Hup2. injection Hup2 as <- <- <-.
      by destruct Hres2 as [([=] & _) | (_ & _ & Hfix)].
    + apply unit_propagation_fixpoint.
Qed.

Lemma unit_propagation_idempotent_witness :
  unit_propagation (Formula_new unit_chain) unit_chain_trail
  = Some ("unresolved", None, unit_chain_trail).
Proof.
  assert (Hup : unit_propagation (Formula_new unit_chain) Assignments_new
                = Some ("unresolved", None, unit_chain_trail))
    by (vm_compute; reflexivity).
  by apply (proj1 (unit_propagation_idempotent _ _ _ _ _ Hup)).
Defined.

(** ** Backtracking: composition *)

Lemma Assignments_eq (a b : Assignments) :
  assignments a = assignments b → dl a = dl b → a = b.
Proof. destruct a, b. simpl. by intros -> ->. Qed.

(** Backtracking twice is backtracking to the lower of the two levels; in
    particular [backtrack] is idempotent.  On a trail with no entry above
    [b] it changes nothing, and backtracking below every level empties the
    trail. *)
Theorem backtrack_compose :
  ∀ (a : Assignments) (b b' : Z),
    backtrack (backtrack a b) b' = backtrack a (Z.min b b')
    ∧ backtrack (backtrack a b) b = backtrack a b
    ∧ ((∀ v e, assignments a !! v = Some e → a_dl e ≤ b) → backtrack a b = a)
    ∧ ((∀ v e, assignments a !! v = Some e → b < a_dl e) →
       assignments (backtrack a b) = ∅).
Proof.
  intros a b b'.
  assert (Hcomp : ∀ b1 b2, backtrack (backtrack a b1) b2
                           = backtrack a (Z.min b1 b2)).
  { intros b1 b2. apply Assignments_eq; [| by rewrite !backtrack_dl].
    apply map_eq. intros v. rewrite !backtrack_lookup.
    destruct (assignments a !! v) as [e|]; [| done].
    destruct (decide (b1 < a_dl e)), (decide (b2 < a_dl e)),
      (decide (Z.min b1 b2 < a_dl e)); try done; lia. }
  split_and!.
  - apply Hcomp.
  - rewrite Hcomp. by rewrite Z.min_id.
  - intros Hle. apply Assignments_eq; [| apply backtrack_dl].
    apply map_eq. intros v. rewrite backtrack_lookup.
    destruct (assignments a !! v) as [e|] eqn:He; [| done].
    rewrite decide_False; [done |]. specialize (Hle v e He). lia.
  - intros Hgt. apply map_eq. intros v. rewrite backtrack_lookup, lookup_empty.
    destruct (assignments a !! v) as [e|] eqn:He; [| done].
    rewrite decide_True; [done |]. by apply (Hgt v e).
Qed.

Lemma backtrack_compose_witness :
  backtrack sample_trail 2 = sample_trail
  ∧ assignments (backtrack sample_trail 0) = ∅.
Proof.
  pose proof (backtrack_compose sample_trail 2 0) as (_ & _ & Hid & _).
  pose proof (backtrack_compose sample_trail 0 0) as (_ & _ & _ & Hempty).
  split.
  - apply Hid.
    change (map_Forall (λ _ e, a_dl e ≤ 2) (assignments sample_trail)).
    eapply bool_decide_unpack. vm_compute. exact I.
  - apply Hempty.
    change (map_Forall (λ _ e, 0 < a_dl e) (assignments sample_trail)).
    eapply bool_decide_unpack. vm_compute. exact I.
Defined.

(** ** The driver: what a decision and a conflict do to the trail *)

Lemma decide_then_propagate_levels (formula : Formula) (a : Assignments)
    (var : Z) (val : bool) reason clause a2 :
  unassigned a var →
  unit_propagation formula (assign (set_dl a (dl a + 1)) var val None)
  = Some (reason, clause, a2) →
  dl a2 = dl a + 1
  ∧ assignments a ⊆ assignments a2
  ∧ (S (Assignments_size a) ≤ Assignments_size a2)%nat
  ∧ ∀ v e, assignments a2 !! v = Some e →
      assignments a !! v = Some e ∨ (assignments a !! v = None ∧ a_dl e = dl a + 1).
Proof.
  intros Hun (Hdl & Hsub & Hnew)%unit_propagation_added. simpl in *.
  split_and!.
  - done.
  - etrans; [| done]. by apply insert_subseteq.
  - unfold Assignments_size.
    rewrite <- (map_size_insert_None var (mkAssignment val None (dl a + 1)))
      by done.
    by apply map_subseteq_size.
  - intros v e Hv.
    destruct (<[var:=mkAssignment val None (dl a + 1)]> (assignments a) !! v)
      as [e1|] eqn:H1.
    + assert (e1 = e) as ->.
      { pose proof (lookup_weaken _ _ _ _ H1 Hsub). congruence. }
      destruct (decide (v = var)) as [->|Hne].
      * rewrite lookup_insert_eq in H1. injection H1 as <-. by right.
      * rewrite lookup_insert_ne in H1 by done. by left.
    + destruct (Hnew v e Hv H1) as [Hlevel _]. right. split; [| done].
      destruct (decide (v = var)) as [->|Hne].
      * by rewrite lookup_insert_eq in H1.
      * by rewrite lookup_insert_ne in H1.
Qed.

Lemma backtrack_restores (formula : Formula) (a : Assignments) (var : Z)
    (val : bool) reason clause a2 :
  (∀ v e, assignments a !! v = Some e → a_dl e ≤ dl a) →
  unassigned a var →
  unit_propagation formula (assign (set_dl a (dl a + 1)) var val None)
  = Some (reason, clause, a2) →
  set_dl (backtrack a2 (dl a)) (dl a) = a.
Proof.
  intros Hlevels Hun Hup.
  destruct (decide_then_propagate_levels _ _ _ _ _ _ _ Hun Hup)
    as (_ & Hsub & _ & Hentries).
  apply Assignments_eq; [| done]. simpl.
  apply map_eq. intros v. rewrite backtrack_lookup.
  destruct (assignments a2 !! v) as [e|] eqn:He.
  - destruct (Hentries v e He) as [Hold | [Hnone Hlevel]].
    + rewrite decide_False; [done |]. specialize (Hlevels v e Hold). lia.
    + rewrite decide_True; [done | lia].
  - symmetry. by eapply lookup_weaken_None.
Qed.

(** Deciding a variable that has no entry, propagating, and backtracking to
    the level before the decision gives the trail before the decision back,
    whatever the propagation answered, provided no entry of that trail was
    above its level. *)
Theorem decide_propagate_backtrack :
  ∀ (formula : Formula) (a : Assignments) (var : Z) (val : bool)
    reason clause a2,
    (∀ v e, assignments a !! v = Some e → a_dl e ≤ dl a) →
    unassigned a var →
    unit_propagation formula (assign (set_dl a (dl a + 1)) var val None)
    = Some (reason, clause, a2) →
    set_dl (backtrack a2 (dl a)) (dl a) = a.
Proof. apply backtrack_restores. Qed.

Lemma decide_propagate_backtrack_witness :
  ∃ a2, unit_propagation (Formula_new learning_clauses)
          (assign (set_dl Assignments_new 1) 1 true None)
        = Some ("conflict", learning_clauses !! 1%nat, a2)
        ∧ set_dl (backtrack a2 0) 0 = Assignments_new.
Proof.
  destruct (unit_propagation (Formula_new learning_clauses)
              (assign (set_dl Assignments_new 1) 1 true None))
    as [[[reason clause] a2]|] eqn:Hup; [| by vm_compute in Hup].
  exists a2. split.
  - vm_compute in Hup. injection Hup as <- <- <-. vm_compute. reflexivity.
  - apply (decide_propagate_backtrack (Formula_new learning_clauses)
             Assignments_new 1 true reason clause a2).
    + intros v e Hv. simpl in Hv. by rewrite lookup_empty in Hv.
    + vm_compute. reflexivity.
    + exact Hup.
Defined.

Lemma propagation_fixpoint_push_back (formula : Formula) (a : Assignments)
    (c : Clause) :
  propagation_fixpoint (clauses formula) a → c ∈ clauses formula →
  propagation_fixpoint (clauses (push_back formula c)) a.
Proof.
  intros Hfix Hc c' [? | ->%list_elem_of_singleton]%elem_of_app; by apply Hfix.
Qed.

(** The inner loop, entered after a decision at the head of the main loop:
    it is left by [break], after no conflict or after one, and the head of
    the main loop is reached again; a conflict appends one clause and gives
    the trail of before the decision back. *)
Lemma propagate_loop_after_decision (cls : list Clause) (formula : Formula)
    (a : Assignments) (var : Z) (val : bool) (rounds : nat) :
  loop_head cls formula a → unassigned a var → var ∈ get_variables formula →
  (2 ≤ rounds)%nat →
  ∃ formula' a',
    propagate_loop rounds formula (assign (set_dl a (dl a + 1)) var val None)
    = Break formula' a'
    ∧ loop_head cls formula' a'
    ∧ ((formula' = formula
        ∧ unit_propagation formula (assign (set_dl a (dl a + 1)) var val None)
          = Some ("unresolved", None, a')
        ∧ (S (Assignments_size a) ≤ Assignments_size a')%nat)
       ∨ (a' = a
          ∧ ∃ c a2,
              unit_propagation formula (assign (set_dl a (dl a + 1)) var val None)
              = Some ("conflict", Some c, a2)
              ∧ c ∈ clauses formula ∧ formula' = push_back formula c)).
Proof.
  intros (Hg & Hw & Hfix & Hlevels & Hdl) Hun Hvar Hrounds.
  destruct rounds as [|[|rounds]]; [lia | lia |].
  set (a1 := assign (set_dl a (dl a + 1)) var val None).
  unfold propagate_loop; fold propagate_loop.
  destruct (unit_propagation_spec formula a1)
    as (reason & clause & a2 & Hup & Hext & Hres).
  rewrite Hup.
  destruct (decide_then_propagate_levels _ _ _ _ _ _ _ Hun Hup)
    as (Hdl2 & Hsub & Hsize & Hentries).
  assert (Hw2 : within_variables formula a2).
  { eapply within_variables_extends; [done | | done].
    by apply within_variables_decide. }
  destruct Hres as [(-> & c & -> & Hc & Hf) | (-> & -> & Hfix2)]; simpl.
  - unfold conflict_analysis. rewrite Hdl2.
    destruct (Z.eqb_spec (dl a + 1) 0) as [? | _]; [lia |].
    replace (dl a + 1 - 1) with (dl a) by lia.
    destruct (Z.ltb_spec (dl a) 0) as [? | _]; [lia |].
    rewrite (backtrack_restores formula a var val _ _ a2
               (λ v e H, proj2 (Hlevels v e H)) Hun Hup).
    unfold propagate_loop; fold propagate_loop.
    rewrite unit_propagation_fixpoint
      by by apply propagation_fixpoint_push_back.
    simpl. exists (push_back formula c), a. split_and!; [done | | right].
    + split_loop_head; [by apply grown_from_push_back | done | | done | done].
      by apply propagation_fixpoint_push_back.
    + split; [done |]. by exists c, a2.
  - exists formula, a2. split_and!; [done | | left; done].
    split_loop_head; [done | done | done | |].
    + intros v e Hv. destruct (Hentries v e Hv) as [Hold | [_ ->]].
      * specialize (Hlevels v e Hold). lia.
      * lia.
    + lia.
Qed.

(** The main loop from its head: it does not return [nullopt] and does not
    get stuck; it returns the trail once all variables are assigned, and
    until then every draw is one more decision.  Each decision appends at
    most one clause. *)
Lemma cdcl_loop_from_head (cls : list Clause) (draws : list (nat * bool)) :
  ∀ formula a,
    loop_head cls formula a →
    match cdcl_loop pick_branching_variable draws formula a with
    | Returned (Some a') formula' =>
        loop_head cls formula' a' ∧ all_variables_assigned formula' a' = true
        ∧ (length (clauses formula')
           ≤ length (clauses formula) + length draws)%nat
    | Unfinished formula' a' =>
        loop_head cls formula' a' ∧ all_variables_assigned formula' a' = false
        ∧ (length (clauses formula')
           ≤ length (clauses formula) + length draws)%nat
    | Returned None _ | Stuck => False
    end.
Proof.
  induction draws as [|d draws IH]; intros formula a Hhead; simpl;
    destruct (all_variables_assigned formula a) eqn:Hall;
    try (split_and!; [done | done | lia]).
  pose proof Hhead as (Hg & Hw & _ & _ & Hdl).
  destruct (pick_branching_variable_total d formula a Hw Hall) as [[var val] Hpick].
  rewrite Hpick.
  apply pick_branching_variable_unassigned in Hpick as [Hvar Hun].
  destruct (propagate_loop_after_decision cls formula a var val
              (S (Z.to_nat (dl a + 1))) Hhead Hun Hvar)
    as (formula' & a' & -> & Hhead' & Hstep); [lia |].
  specialize (IH formula' a' Hhead').
  assert (Hlen : (length (clauses formula') ≤ S (length (clauses formula)))%nat).
  { destruct Hstep as [[-> _] | (_ & c & a2 & _ & _ & ->)]; simpl; [lia |].
    rewrite length_app. simpl. lia. }
  destruct (cdcl_loop pick_branching_variable draws formula' a')
    as [[a''|] formula''|formula'' a''|]; try done.
  - destruct IH as (? & ? & ?). split_and!; [done | done | lia].
  - destruct IH as (? & ? & ?). split_and!; [done | done | lia].
Qed.

Lemma loop_head_initial (cls : list Clause) (a : Assignments) :
  unit_propagation (Formula_new cls) Assignments_new
  = Some ("unresolved", None, a) →
  loop_head cls (Formula_new cls) a.
Proof.
  intros Hup.
  destruct (unit_propagation_spec (Formula_new cls) Assignments_new)
    as (reason & clause & a' & Hup' & Hext & Hres).
  rewrite Hup in Hup'. injection Hup' as <- <- <-.
  destruct Hres as [([=] & _) | (_ & _ & Hfix)].
  pose proof (unit_propagation_added _ _ _ _ _ Hup) as (Hdl & _ & Hnew).
  simpl in *. split_loop_head.
  - apply grown_from_new.
  - eapply within_variables_extends; [apply grown_from_new | | done].
    intros v Hv. by destruct Hv.
  - done.
  - intros v e Hv. destruct (Hnew v e Hv) as [-> _]; [apply lookup_empty |].
    rewrite Hdl. lia.
  - rewrite Hdl. lia.
Qed.

(** The outcomes of [cdcl_solve]: a conflict in the first propagation, or
    the main loop from its head. *)
Lemma cdcl_solve_outcomes (draws : list (nat * bool)) (cls : list Clause) :
  (∃ c a, unit_propagation (Formula_new cls) Assignments_new
          = Some ("conflict", Some c, a)
          ∧ cdcl_solve draws (Formula_new cls) = Returned None (Formula_new cls))
  ∨ (∃ a0, unit_propagation (Formula_new cls) Assignments_new
           = Some ("unresolved", None, a0)
           ∧ match cdcl_solve draws (Formula_new cls) with
             | Returned (Some a') formula' =>
                 loop_head cls formula' a'
                 ∧ all_variables_assigned formula' a' = true
                 ∧ (length (clauses formula') ≤ length cls + length draws)%nat
             | Unfinished formula' a' =>
                 loop_head cls formula' a'
                 ∧ all_variables_assigned formula' a' = false
                 ∧ (length (clauses formula') ≤ length cls + length draws)%nat
             | Returned None _ | Stuck => False
             end).
Proof.
  unfold cdcl_solve, cdcl_solve_with.
  destruct (unit_propagation_spec (Formula_new cls) Assignments_new)
    as (reason & clause & a & Hup & _ & Hres).
  rewrite Hup.
  destruct Hres as [(-> & c & -> & _) | (-> & -> & _)]; simpl.
  - left. by exists c, a.
  - right. exists a. split; [done |].
    apply (cdcl_loop_from_head cls draws (Formula_new cls) a).
    by apply loop_head_initial.
Qed.

(** ** The verdicts of the driver *)

Lemma agrees_valuation_of (a : Assignments) : agrees (valuation_of a) a.
Proof.
  intros v e Hv. unfold valuation_of, value. simpl. by rewrite Hv.
Qed.

Lemma models_grown (M : Z → bool) (cls : list Clause) (formula : Formula) :
  grown_from cls formula → models M cls → models M (clauses formula).
Proof.
  intros Hg Hm c Hc. apply Hm. by apply (grown_from_clause cls formula c Hg).
Qed.

Lemma loop_head_all_assigned_true (cls : list Clause) (formula : Formula)
    (a : Assignments) :
  loop_head cls formula a → all_variables_assigned formula a = true →
  ∀ c, c ∈ clauses formula → ∃ l, l ∈ c ∧ value a l = true.
Proof.
  intros (Hg & Hw & Hfix & _) Hall c Hc.
  pose proof (all_variables_assigned_dom _ _ Hw Hall) as Hdom.
  apply unfalsified_assigned_clause; [| by destruct (Hfix c Hc)].
  intros l Hl Hun%not_elem_of_dom. apply Hun. rewrite Hdom.
  eapply grown_from_occurs; [done |]. by exists c, l.
Qed.

Lemma loop_head_all_assigned_models (cls : list Clause) (formula : Formula)
    (a : Assignments) :
  loop_head cls formula a → all_variables_assigned formula a = true →
  models (valuation_of a) cls.
Proof.
  intros Hhead Hall c Hc.
  destruct (loop_head_all_assigned_true cls formula a Hhead Hall c)
    as (l & Hl & Hv).
  { destruct Hhead as (Hg & _). by apply (grown_from_clause cls formula c Hg). }
  exists l. split; [done |].
  rewrite <- (agrees_value _ a l (agrees_valuation_of a)); [done |].
  by apply value_true_assigned.
Qed.

(** After its first decision [cdcl_solve] does not answer "unsatisfiable":
    it returns no assignment only when the propagation before the main loop
    reports a conflict, and then the formula is left as it was. *)
Theorem nullopt_only_from_first_propagation :
  ∀ (draws : list (nat * bool)) (cls : list Clause) (formula' : Formula),
    cdcl_solve draws (Formula_new cls) = Returned None formula' →
    formula' = Formula_new cls
    ∧ ∃ c a, unit_propagation (Formula_new cls) Assignments_new
             = Some ("conflict", Some c, a).
Proof.
  intros draws cls formula' Hrun.
  destruct (cdcl_solve_outcomes draws cls)
    as [(c & a & Hup & Hret) | (a0 & _ & Hloop)].
  - rewrite Hrun in Hret. injection Hret as ->. split; [done |]. by exists c, a.
  - by rewrite Hrun in Hloop.
Qed.

Lemma nullopt_only_from_first_propagation_witness :
  ∃ c a, unit_propagation (Formula_new propagated_conflict) Assignments_new
         = Some ("conflict", Some c, a).
Proof.
  eapply (nullopt_only_from_first_propagation []). vm_compute. reflexivity.
Defined.

(** Both verdicts are correct: when [cdcl_solve] returns no assignment, no
    valuation satisfies the clause list; when it returns a trail, the
    valuation the trail stands for satisfies every clause. *)
Theorem cdcl_solve_verdicts_correct :
  ∀ (draws : list (nat * bool)) (cls : list Clause),
    (∀ formula', cdcl_solve draws (Formula_new cls) = Returned None formula' →
                 ¬ satisfiable cls)
    ∧ (∀ a formula',
         cdcl_solve draws (Formula_new cls) = Returned (Some a) formula' →
         models (valuation_of a) cls).
Proof.
  intros draws cls.
  destruct (cdcl_solve_outcomes draws cls)
    as [(c & a0 & Hup & Hret) | (a0 & _ & Hloop)]; split.
  - intros formula' _ [M Hm].
    assert (Hag : agrees M Assignments_new).
    { intros v e Hv. simpl in Hv. by rewrite lookup_empty in Hv. }
    by destruct (unit_propagation_agrees M (Formula_new cls) _ _ _ _ Hm Hag Hup)
      as [_ [=]].
  - intros a formula' Hrun. by rewrite Hrun in Hret.
  - intros formula' Hrun. by rewrite Hrun in Hloop.
  - intros a formula' Hrun. rewrite Hrun in Hloop.
    destruct Hloop as (Hhead & Hall & _).
    by eapply loop_head_all_assigned_models.
Qed.

Lemma cdcl_solve_verdicts_correct_witness :
  ¬ satisfiable contradictory_units
  ∧ models (valuation_of sample_trail) sample_clauses.
Proof.
  split.
  - eapply (proj1 (cdcl_solve_verdicts_correct [] contradictory_units)).
    vm_compute. reflexivity.
  - eapply (proj2 (cdcl_solve_verdicts_correct sample_draws sample_clauses)).
    vm_compute. reflexivity.
Defined.

(** The assertion of [main], [result->satisfy(formula)], evaluated on the
    formula as [cdcl_solve] left it, learned clauses included, holds. *)
Theorem main_assertion_holds :
  ∀ (draws : list (nat * bool)) (cls : list Clause) (a : Assignments)
    (formula' : Formula),
    cdcl_solve draws (Formula_new cls) = Returned (Some a) formula' →
    satisfy a formula' = true.
Proof.
  intros draws cls a formula' Hrun.
  destruct (cdcl_solve_outcomes draws cls)
    as [(c & a0 & _ & Hret) | (a0 & _ & Hloop)].
  - by rewrite Hrun in Hret.
  - rewrite Hrun in Hloop. destruct Hloop as (Hhead & Hall & _).
    apply satisfy_true_iff. by eapply loop_head_all_assigned_true.
Qed.

Lemma main_assertion_holds_witness :
  ∃ a formula',
    cdcl_solve learning_draws (Formula_new learning_clauses)
    = Returned (Some a) formula'
    ∧ length (clauses formula') = 4%nat
    ∧ satisfy a formula' = true.
Proof.
  destruct (cdcl_solve learning_draws (Formula_new learning_clauses))
    as [[a|] formula'| |] eqn:Hrun; try by vm_compute in Hrun.
  exists a, formula'. split_and!; [done | |].
  - vm_compute in Hrun. by injection Hrun as <- <-.
  - by apply (main_assertion_holds learning_draws learning_clauses).
Defined.

(** An unsatisfiable clause list on which the first propagation finds no
    conflict: [cdcl_solve] never returns, whatever is drawn.  After every
    number of decisions the main loop is still running. *)
Theorem unsatisfiable_without_conflict_never_returns :
  ∀ (cls : list Clause) (a0 : Assignments),
    ¬ satisfiable cls →
    unit_propagation (Formula_new cls) Assignments_new
    = Some ("unresolved", None, a0) →
    ∀ draws, ∃ formula a,
      cdcl_solve draws (Formula_new cls) = Unfinished formula a.
Proof.
  intros cls a0 Hunsat Hup draws.
  destruct (cdcl_solve_outcomes draws cls)
    as [(c & a & Hup' & _) | (a1 & _ & Hloop)]; [congruence |].
  destruct (cdcl_solve draws (Formula_new cls))
    as [[a|] formula|formula a|]; [| done | by exists formula, a | done].
  exfalso. apply Hunsat. exists (valuation_of a).
  destruct Hloop as (Hhead & Hall & _).
  by eapply loop_head_all_assigned_models.
Qed.

Lemma all_sign_patterns_unsatisfiable : ¬ satisfiable all_sign_patterns.
Proof.
  intros [M Hm].
  assert (Hb : ∀ c, c ∈ all_sign_patterns → existsb (literal_true M) c = true).
  { intros c (l & Hl & Ht)%Hm. apply existsb_exists. exists l.
    by rewrite <- list_elem_of_In. }
  pose proof (Hb _ (list_elem_of_here _ _)) as H1.
  pose proof (Hb _ (list_elem_of_further _ _ _ (list_elem_of_here _ _))) as H2.
  pose proof (Hb _ (list_elem_of_further _ _ _
                      (list_elem_of_further _ _ _ (list_elem_of_here _ _)))) as H3.
  pose proof (Hb _ (list_elem_of_further _ _ _
                      (list_elem_of_further _ _ _
                         (list_elem_of_further _ _ _ (list_elem_of_here _ _)))))
    as H4.
  cbn in H1, H2, H3, H4. unfold literal_true in *. cbn in H1, H2, H3, H4.
  change (Z.abs 1) with 1 in *. change (Z.abs (-1)) with 1 in *.
  change (Z.abs 2) with 2 in *. change (Z.abs (-2)) with 2 in *.
  destruct (M 1), (M 2); discriminate.
Defined.

Lemma unsatisfiable_without_conflict_never_returns_witness :
  ∃ formula a,
    cdcl_solve learning_draws (Formula_new all_sign_patterns)
    = Unfinished formula a.
Proof.
  apply (unsatisfiable_without_conflict_never_returns all_sign_patterns
           Assignments_new).
  - exact all_sign_patterns_unsatisfiable.
  - vm_compute. reflexivity.
Defined.

(** ** Decision levels and learned clauses *)

Lemma Assignments_size_le_variables (formula : Formula) (a : Assignments) :
  within_variables formula a →
  (Assignments_size a ≤ size (get_variables formula))%nat.
Proof.
  intros Hw. unfold Assignments_size. rewrite <- size_dom.
  apply subseteq_size. intros v [e He]%elem_of_dom.
  apply Hw. unfold unassigned. congruence.
Qed.

(** In every state in which a run returns a trail or is cut off, no entry
    has a level below 0 or above [dl], and [dl] is at most the number of
    assigned variables, which is at most the number of variables of the
    formula: [dl++] stays within the range of [int] for every formula with
    fewer than [2^31] variables. *)
Theorem decision_levels_bounded :
  ∀ (draws : list (nat * bool)) (cls : list Clause) (a : Assignments)
    (formula' : Formula),
    cdcl_solve draws (Formula_new cls) = Returned (Some a) formula'
    ∨ cdcl_solve draws (Formula_new cls) = Unfinished formula' a →
    (∀ v e, assignments a !! v = Some e → 0 ≤ a_dl e ≤ dl a)
    ∧ 0 ≤ dl a ≤ Z.of_nat (Assignments_size a)
    ∧ (Assignments_size a ≤ size (get_variables (Formula_new cls)))%nat.
Proof.
  intros draws cls a formula' Hrun.
  destruct (cdcl_solve_outcomes draws cls)
    as [(c & a0 & _ & Hret) | (a0 & _ & Hloop)].
  - destruct Hrun as [Hrun | Hrun]; by rewrite Hrun in Hret.
  - assert (Hhead : loop_head cls formula' a).
    { destruct Hrun as [Hrun | Hrun]; rewrite Hrun in Hloop; by destruct Hloop. }
    destruct Hhead as ((Hvars & _) & Hw & _ & Hlevels & Hdl).
    refine (conj Hlevels (conj Hdl _)).
    pose proof (Assignments_size_le_variables _ _ Hw) as Hle.
    unfold get_variables in *. by rewrite <- Hvars.
Qed.

Lemma decision_levels_bounded_witness :
  0 ≤ dl sample_trail ≤ Z.of_nat (Assignments_size sample_trail).
Proof.
  apply (decision_levels_bounded sample_draws sample_clauses sample_trail
           (Formula_new sample_clauses)).
  left. vm_compute. reflexivity.
Defined.


(** ** Every model can be found *)

Lemma pick_branching_variable_value (i : nat) (b b' : bool) (formula : Formula)
    (a : Assignments) (var : Z) :
  pick_branching_variable (i, b) formula a = Some (var, b) →
  pick_branching_variable (i, b') formula a = Some (var, b').
Proof.
  unfold pick_branching_variable. simpl.
  destruct (_ !! _) as [v|]; simpl; [| done]. by intros [= ->].
Qed.

Lemma agrees_decide (M : Z → bool) (a : Assignments) (var : Z) (d : Z) :
  agrees M a → agrees M (assign (set_dl a d) var (M var) None).
Proof.
  intros Hag v e Hv. simpl in Hv.
  destruct (decide (v = var)) as [->|Hne].
  - rewrite lookup_insert_eq in Hv. by injection Hv as <-.
  - rewrite lookup_insert_ne in Hv by done. by apply Hag.
Qed.

(** From the head of the main loop, with a trail that agrees with a model:
    deciding each picked variable as the model has it, the loop returns
    within as many decisions as there are unassigned variables. *)
Lemma cdcl_loop_guided (M : Z → bool) (cls : list Clause) (n : nat) :
  models M cls →
  ∀ formula a,
    loop_head cls formula a → agrees M a →
    (size (get_variables formula) ≤ Assignments_size a + n)%nat →
    ∃ draws a',
      (length draws ≤ n)%nat
      ∧ cdcl_loop pick_branching_variable draws formula a
        = Returned (Some a') formula
      ∧ agrees M a'.
Proof.
  intros Hm. induction n as [|n IH]; intros formula a Hhead Hag Hsize.
  - exists [], a. split_and!; [done | | done]. simpl.
    destruct Hhead as (_ & Hw & _).
    pose proof (Assignments_size_le_variables _ _ Hw).
    unfold all_variables_assigned.
    rewrite bool_decide_eq_true_2; [done | lia].
  - destruct (all_variables_assigned formula a) eqn:Hall.
    { exists [], a. split_and!; [simpl; lia | | done]. simpl. by rewrite Hall. }
    pose proof Hhead as (Hg & Hw & _).
    destruct (pick_branching_variable_total (0%nat, true) formula a Hw Hall)
      as [[var val] Hpick].
    assert (val = true) as ->.
    { unfold pick_branching_variable in Hpick.
      by apply bind_Some in Hpick as (? & _ & [= _ <-]). }
    apply (pick_branching_variable_value _ _ (M var)) in Hpick.
    pose proof (pick_branching_variable_unassigned _ _ _ _ _ Hpick)
      as [Hvar Hun].
    destruct (propagate_loop_after_decision cls formula a var (M var)
                (S (Z.to_nat (dl a + 1))) Hhead Hun Hvar)
      as (formula' & a' & Hloop & Hhead' & Hstep).
    { destruct Hhead as (_ & _ & _ & _ & Hdl). lia. }
    pose proof (agrees_decide M a var (dl a + 1) Hag) as Hag1.
    pose proof (models_grown M cls formula Hg Hm) as Hmf.
    destruct Hstep as [(-> & Hup & Hgrow) | (_ & c & a2 & Hup & _)].
    + destruct (unit_propagation_agrees M formula _ _ _ _ Hmf Hag1 Hup)
        as [Hag' _].
      destruct (IH formula a' Hhead' Hag') as (draws & a'' & Hlen & Hrun & Hag'');
        [lia |].
      exists ((0%nat, M var) :: draws), a''.
      split_and!; [simpl; lia | | done].
      simpl. rewrite Hall, Hpick. simpl. by rewrite Hloop.
    + by destruct (unit_propagation_agrees M formula _ _ _ _ Hmf Hag1 Hup)
        as [_ [=]].
Qed.

Lemma models_check (M : Z → bool) (cls : list Clause) :
  forallb (existsb (literal_true M)) cls = true → models M cls.
Proof.
  intros Hall c Hc%list_elem_of_In.
  eapply forallb_forall in Hall; [| done].
  apply existsb_exists in Hall as (l & Hl & Ht).
  exists l. by rewrite list_elem_of_In.
Qed.

(** The solver can find every model: for a valuation that satisfies the
    clause list there are draws, no more than the formula has variables, on
    which [cdcl_solve] returns a trail that agrees with the valuation,
    without learning a clause.  So on a satisfiable formula some draws make
    it return. *)
Theorem every_model_can_be_returned :
  ∀ (cls : list Clause) (M : Z → bool),
    models M cls →
    ∃ draws a,
      (length draws ≤ size (get_variables (Formula_new cls)))%nat
      ∧ cdcl_solve draws (Formula_new cls) = Returned (Some a) (Formula_new cls)
      ∧ agrees M a.
Proof.
  intros cls M Hm.
  assert (Hag0 : agrees M Assignments_new).
  { intros v e Hv. simpl in Hv. by rewrite lookup_empty in Hv. }
  destruct (unit_propagation_spec (Formula_new cls) Assignments_new)
    as (reason & clause & a0 & Hup & _ & Hres).
  destruct (unit_propagation_agrees M (Formula_new cls) _ _ _ _ Hm Hag0 Hup)
    as [Hag ->].
  destruct Hres as [([=] & _) | (_ & -> & _)].
  destruct (cdcl_loop_guided M cls (size (get_variables (Formula_new cls))) Hm
              (Formula_new cls) a0 (loop_head_initial cls a0 Hup) Hag)
    as (draws & a & Hlen & Hrun & Hag'); [lia |].
  exists draws, a. split_and!; [done | | done].
  unfold cdcl_solve, cdcl_solve_with. by rewrite Hup.
Qed.

Lemma every_model_can_be_returned_witness :
  ∃ draws a,
    cdcl_solve draws (Formula_new sample_clauses)
    = Returned (Some a) (Formula_new sample_clauses)
    ∧ agrees (valuation_of sample_trail) a.
Proof.
  destruct (every_model_can_be_returned sample_clauses (valuation_of sample_trail))
    as (draws & a & _ & Hrun & Hag).
  - apply models_check. vm_compute. reflexivity.
  - by exists draws, a.
Defined.

(** ** The parser: lines and tokens *)

Lemma string_app_cons (c : ascii) (s t : string) :
  String c s +:+ t = String c (s +:+ t).
Proof. reflexivity. Qed.

Lemma string_app_assoc (s1 s2 s3 : string) :
  (s1 +:+ s2) +:+ s3 = s1 +:+ (s2 +:+ s3).
Proof.
  induction s1 as [|c s1 IH]; [done |]. rewrite !string_app_cons. by rewrite IH.
Qed.

Lemma string_app_nil_r (s : string) : s +:+ "" = s.
Proof.
  induction s as [|c s IH]; [done |]. rewrite string_app_cons. by rewrite IH.
Qed.

Lemma string_forall_app (P : ascii → bool) (s t : string) :
  string_forall P (s +:+ t) = string_forall P s && string_forall P t.
Proof.
  induction s as [|c s IH]; [done |]. rewrite string_app_cons. simpl.
  by rewrite IH, andb_assoc.
Qed.

Lemma string_forall_impl (P Q : ascii → bool) (s : string) :
  (∀ c, P c = true → Q c = true) →
  string_forall P s = true → string_forall Q s = true.
Proof.
  intros HPQ. induction s as [|c s IH]; [done |]. simpl.
  intros [? ?]%andb_true_iff. apply andb_true_iff. auto.
Qed.

(** Reading on through a stretch without delimiter only extends what the
    call in progress has extracted. *)
Lemma getlines_app (l s : string) (line : option string) :
  no_newline l →
  getlines (l +:+ s) line
  = getlines s (match l with
                | EmptyString => line
                | _ => Some (default EmptyString line +:+ l)
                end).
Proof.
  unfold no_newline. revert line. induction l as [|c l IH]; intros line; [done |].
  simpl. intros [Hc Hl]%andb_true_iff. apply negb_true_iff in Hc.
  rewrite Hc, (IH _ Hl).
  destruct l; [done |]. simpl. by rewrite string_app_assoc.
Qed.

Lemma getlines_line (l s : string) :
  no_newline l →
  getlines (l +:+ String newline s) None = l :: getlines s None.
Proof.
  intros Hl. rewrite getlines_app by done. simpl.
  by destruct l.
Qed.

Lemma getlines_unlines (lines : list string) :
  Forall no_newline lines → getlines (unlines lines) None = lines.
Proof.
  induction 1 as [|l lines Hl _ IH]; [done |].
  simpl. by rewrite getlines_line, IH.
Qed.

Lemma tokens_of_app (t s : string) (token : option string) :
  no_space t →
  tokens_of (t +:+ s) token
  = tokens_of s (match t with
                 | EmptyString => token
                 | _ => Some (default EmptyString token +:+ t)
                 end).
Proof.
  unfold no_space. revert token. induction t as [|c t IH]; intros token; [done |].
  simpl. intros [Hc Ht]%andb_true_iff. apply negb_true_iff in Hc.
  rewrite Hc, (IH _ Ht).
  destruct t; [done |]. simpl. by rewrite string_app_assoc.
Qed.

Lemma tokens_of_word (t s : string) :
  no_space t → t ≠ "" →
  tokens_of (t +:+ String " " s) None = t :: tokens_of s None.
Proof.
  intros Ht Hne. rewrite tokens_of_app by done.
  destruct t; [done |]. done.
Qed.

Lemma tokens_of_last_word (t : string) :
  no_space t → t ≠ "" → tokens_of t None = [t].
Proof.
  intros Ht Hne. rewrite <- (string_app_nil_r t) at 1.
  rewrite tokens_of_app by done. by destruct t.
Qed.

(** ** The parser: the state it threads *)

Lemma parse_lines_app (xs ys : list string) (cls : list Clause) (cur : Clause) :
  parse_lines (xs ++ ys) cls cur
  = match parse_lines xs cls cur with
    | Value (cls', cur') => parse_lines ys cls' cur'
    | Throws e => Throws e
    | UndefinedBehaviour => UndefinedBehaviour
    end.
Proof.
  revert cls cur. induction xs as [|x xs IH]; intros cls cur; [done |].
  simpl. destruct (parse_tokens _ cls cur) as [[cls' cur']|e|]; [| done | done].
  apply IH.
Qed.

Lemma parse_tokens_ignored (line : string) (cls : list Clause) (cur : Clause) :
  ignored_line line →
  parse_tokens (tokens_of line None) cls cur = Value (cls, cur).
Proof.
  unfold ignored_line. destruct (tokens_of line None) as [|t ts]; [done |].
  by intros [-> | ->].
Qed.

Lemma parse_lines_ignored (xs ys : list string) (line : string)
    (cls : list Clause) (cur : Clause) :
  ignored_line line →
  parse_lines (xs ++ line :: ys) cls cur = parse_lines (xs ++ ys) cls cur.
Proof.
  intros Hign. rewrite !parse_lines_app.
  destruct (parse_lines xs cls cur) as [[cls' cur']|e|]; [| done | done].
  simpl. by rewrite parse_tokens_ignored.
Qed.

(** Comment lines, the problem line and blank lines are ignored: in a file
    of newline-terminated lines, a line without tokens or whose first token
    is [c] or [p] can be removed without changing what the parser returns
    or throws. *)
Theorem parse_ignores_comment_lines :
  ∀ (before after : list string) (line : string),
    Forall no_newline before → Forall no_newline after → no_newline line →
    ignored_line line →
    parse_dimacs_cnf (unlines (before ++ line :: after))
    = parse_dimacs_cnf (unlines (before ++ after)).
Proof.
  intros before after line Hb Ha Hl Hign. unfold parse_dimacs_cnf.
  rewrite !getlines_unlines.
  - by rewrite parse_lines_ignored.
  - by apply Forall_app.
  - apply Forall_app. split; [done |]. by constructor.
Qed.

Lemma parse_ignores_comment_lines_witness :
  parse_dimacs_cnf (unlines ["p cnf 2 2"; "1 -2 0"; "c a comment 3 0"; "2 0"])
  = parse_dimacs_cnf (unlines ["p cnf 2 2"; "1 -2 0"; "2 0"]).
Proof.
  apply (parse_ignores_comment_lines ["p cnf 2 2"; "1 -2 0"] ["2 0"]
           "c a comment 3 0").
  - repeat constructor.
  - repeat constructor.
  - reflexivity.
  - vm_compute. by left.
Defined.

(** The last line needs no newline: a newline added at the end of the
    content changes nothing. *)
Lemma getlines_final_newline (s : string) (line : option string) :
  ∃ extra, (extra = [] ∨ extra = [EmptyString])
           ∧ getlines (s +:+ String newline "") line = getlines s line ++ extra.
Proof.
  revert line. induction s as [|c s IH]; intros line.
  - destruct line as [l|]; simpl.
    + exists []. split; [by left | done].
    + exists [EmptyString]. split; [by right | done].
  - rewrite string_app_cons. simpl. destruct (Ascii.eqb c newline).
    + destruct (IH None) as (extra & Hextra & ->). by exists extra.
    + apply IH.
Qed.

Theorem parse_final_newline_optional :
  ∀ content : string,
    parse_dimacs_cnf (content +:+ String newline "") = parse_dimacs_cnf content.
Proof.
  intros content. unfold parse_dimacs_cnf.
  destruct (getlines_final_newline content None) as (extra & Hextra & ->).
  rewrite parse_lines_app.
  destruct (parse_lines (getlines content None) [] []) as [[cls cur]|e|];
    [| done | done].
  by destruct Hextra as [-> | ->].
Qed.

(** ** The parser: integers *)

Lemma stoi_range (token : string) (v : Z) :
  stoi token = Value v → INT_MIN ≤ v ≤ INT_MAX.
Proof.
  unfold stoi.
  destruct (match skip_spaces token with
            | String c rest =>
                if Ascii.eqb c "-" then (true, rest)
                else if Ascii.eqb c "+" then (false, rest)
                else (false, skip_spaces token)
            | EmptyString => (false, skip_spaces token)
            end) as [negative digits].
  destruct (strtol_digits digits None) as [n|]; [| done].
  destruct (_ && _) eqn:Hrange; [| done].
  intros [= <-]. apply andb_true_iff in Hrange as [?%Z.leb_le ?%Z.leb_le]. lia.
Qed.

Lemma parse_tokens_parsed_literals (tokens : list string) :
  ∀ cls cur cls' cur',
    Forall (Forall parsed_literal) cls → Forall parsed_literal cur →
    parse_tokens tokens cls cur = Value (cls', cur') →
    Forall (Forall parsed_literal) cls' ∧ Forall parsed_literal cur'.
Proof.
  induction tokens as [|token tokens IH]; intros cls cur cls' cur' Hcls Hcur; simpl.
  - by intros [= <- <-].
  - destruct (_ || _); [by intros [= <- <-] |].
    destruct (stoi token) as [lit|e|] eqn:Hstoi; [| done | done].
    apply stoi_range in Hstoi.
    destruct (Z.eqb_spec lit 0) as [-> | Hnz].
    + apply IH; [| done]. apply Forall_app. split; [done |]. by constructor.
    + destruct (Z.eqb_spec lit INT_MIN) as [-> | Hmin]; [done |].
      apply IH; [done |]. apply Forall_app. split; [done |].
      constructor; [| done]. unfold parsed_literal, INT_MIN, INT_MAX in *.
      simpl. lia.
Qed.

Lemma parse_lines_parsed_literals (lines : list string) :
  ∀ cls cur cls' cur',
    Forall (Forall parsed_literal) cls → Forall parsed_literal cur →
    parse_lines lines cls cur = Value (cls', cur') →
    Forall (Forall parsed_literal) cls' ∧ Forall parsed_literal cur'.
Proof.
  induction lines as [|line lines IH]; intros cls cur cls' cur' Hcls Hcur; simpl.
  - by intros [= <- <-].
  - destruct (parse_tokens _ cls cur) as [[cls1 cur1]|e|] eqn:Htok; [| done | done].
    destruct (parse_tokens_parsed_literals _ _ _ _ _ Hcls Hcur Htok).
    by apply IH.
Qed.

Lemma parse_tokens_failure (tokens : list string) :
  ∀ cls cur,
    match parse_tokens tokens cls cur with
    | Value _ => True
    | Throws e => ∃ token, token ∈ tokens ∧ stoi token = Throws e
    | UndefinedBehaviour => ∃ token, token ∈ tokens ∧ stoi token = Value INT_MIN
    end.
Proof.
  induction tokens as [|token tokens IH]; intros cls cur; simpl; [done |].
  destruct (_ || _); [done |].
  destruct (stoi token) as [lit|e|] eqn:Hstoi.
  - destruct (Z.eqb_spec lit 0) as [-> | Hnz].
    + specialize (IH (cls ++ [cur]) []).
      destruct (parse_tokens tokens _ _) as [?|e|]; [done | |];
        destruct IH as (t & ? & ?); exists t; (split; [by right | done]).
    + destruct (Z.eqb_spec lit INT_MIN) as [-> | Hmin].
      * exists token. split; [by left | done].
      * specialize (IH cls (cur ++ [mkLiteral (Z.abs lit) (lit <? 0)])).
        destruct (parse_tokens tokens _ _) as [?|e|]; [done | |];
          destruct IH as (t & ? & ?); exists t; (split; [by right | done]).
  - exists token. split; [by left | done].
  - exfalso. revert Hstoi. unfold stoi.
    destruct (match skip_spaces token with
              | String c rest =>
                  if Ascii.eqb c "-" then (true, rest)
                  else if Ascii.eqb c "+" then (false, rest)
                  else (false, skip_spaces token)
              | EmptyString => (false, skip_spaces token)
              end) as [negative digits].
    destruct (strtol_digits digits None); [| done]. by destruct (_ && _).
Qed.

Lemma parse_lines_failure (lines : list string) :
  ∀ cls cur,
    match parse_lines lines cls cur with
    | Value _ => True
    | Throws e =>
        ∃ line token, line ∈ lines ∧ token ∈ tokens_of line None
                      ∧ stoi token = Throws e
    | UndefinedBehaviour =>
        ∃ line token, line ∈ lines ∧ token ∈ tokens_of line None
                      ∧ stoi token = Value INT_MIN
    end.
Proof.
  induction lines as [|line lines IH]; intros cls cur; simpl; [done |].
  pose proof (parse_tokens_failure (tokens_of line None) cls cur) as Htok.
  destruct (parse_tokens (tokens_of line None) cls cur) as [[cls' cur']|e|].
  - specialize (IH cls' cur').
    destruct (parse_lines lines cls' cur') as [?|e|]; [done | |];
      destruct IH as (l & t & ? & ? & ?); exists l, t;
      (split_and!; [by right | done | done]).
  - destruct Htok as (t & ? & ?). exists line, t. split_and!; [by left | done | done].
  - destruct Htok as (t & ? & ?). exists line, t. split_and!; [by left | done | done].
Qed.

(** What [parse_dimacs_cnf] does with any content.  It leaves defined
    behaviour only on a token that [std::stoi] converts to [INT_MIN], where
    [abs(lit)] is undefined; it throws only what [std::stoi] throws on one
    of the tokens; and otherwise it returns a formula with only positive
    variables, each an [int], in every literal of every clause and so in
    the variable set: variable 0 does not occur. *)
Theorem parsed_variables_positive :
  ∀ content : string,
    match parse_dimacs_cnf content with
    | Value formula =>
        (∀ c l, c ∈ clauses formula → l ∈ c → 0 < variable l ≤ INT_MAX)
        ∧ (∀ v, v ∈ get_variables formula → 0 < v ≤ INT_MAX)
    | Throws e =>
        ∃ line token,
          line ∈ getlines content None ∧ token ∈ tokens_of line None
          ∧ stoi token = Throws e
    | UndefinedBehaviour =>
        ∃ line token,
          line ∈ getlines content None ∧ token ∈ tokens_of line None
          ∧ stoi token = Value INT_MIN
    end.
Proof.
  intros content. unfold parse_dimacs_cnf.
  pose proof (parse_lines_failure (getlines content None) [] []) as Hfail.
  destruct (parse_lines _ [] []) as [[cls cur]|e|] eqn:Hparse; [| done | done].
  destruct (parse_lines_parsed_literals _ [] [] _ _ ltac:(constructor)
              ltac:(constructor) Hparse) as [Hcls _].
  assert (Hlit : ∀ c l, c ∈ cls → l ∈ c → 0 < variable l ≤ INT_MAX).
  { intros c l Hc Hl. eapply Forall_forall in Hcls; [| done].
    by eapply Forall_forall in Hcls. }
  split; [done |].
  intros v (c & l & Hc & Hl & <-)%elem_of_Formula_new_variables. by eapply Hlit.
Qed.

Lemma parsed_variables_positive_witness :
  0 < 2 ≤ INT_MAX
  ∧ ∃ line token,
      line ∈ getlines "1 -2147483648 0" None ∧ token ∈ tokens_of line None
      ∧ stoi token = Value INT_MIN.
Proof.
  split.
  - pose proof (parsed_variables_positive
                  (unlines ["p cnf 2 2"; "1 -2 0"; "2 0"])) as Hparsed.
    assert (Hparse : parse_dimacs_cnf (unlines ["p cnf 2 2"; "1 -2 0"; "2 0"])
                     = Value (Formula_new (clauses_of_ints [[1; -2]; [2]])))
      by (vm_compute; reflexivity).
    rewrite Hparse in Hparsed. apply (proj2 Hparsed 2).
    vm_compute. reflexivity.
  - pose proof (parsed_variables_positive "1 -2147483648 0") as Hparsed.
    assert (Hparse : parse_dimacs_cnf "1 -2147483648 0" = UndefinedBehaviour)
      by (vm_compute; reflexivity).
    by rewrite Hparse in Hparsed.
Defined.

Lemma digit_char_facts (c : ascii) :
  is_digit c = true →
  Ascii.is_space c = false ∧ Ascii.eqb c "-" = false ∧ Ascii.eqb c "+" = false
  ∧ Ascii.eqb c "c" = false ∧ Ascii.eqb c "p" = false.
Proof.
  destruct c as [[] [] [] [] [] [] [] []]; try discriminate; by intros _.
Qed.

Lemma digit_of_pretty_N_char (m : N) :
  (m < 10)%N → digit_of (pretty_N_char m) = Some (Z.of_N m).
Proof.
  intros Hm.
  assert (m = 0 ∨ m = 1 ∨ m = 2 ∨ m = 3 ∨ m = 4 ∨ m = 5 ∨ m = 6 ∨ m = 7
          ∨ m = 8 ∨ m = 9)%N as Hcases by lia.
  repeat (destruct Hcases as [-> | Hcases]; [done |]). by subst.
Qed.

(** The digits [pretty_N_go] puts in front of [s]: a non-empty run of
    decimal digits that [strtol_digits] converts back to [x]. *)
Lemma pretty_N_go_digits (x : N) :
  (0 < x)%N →
  ∃ d p,
    d ≠ EmptyString
    ∧ string_forall is_digit d = true
    ∧ (∀ s, pretty_N_go x s = d +:+ s)
    ∧ ∀ rest acc,
        strtol_digits (d +:+ rest) acc
        = strtol_digits rest (Some (default 0 acc * p + Z.of_N x)).
Proof.
  induction (N.lt_wf_0 x) as [x _ IH]. intros Hpos.
  pose proof (digit_of_pretty_N_char (x `mod` 10)%N) as Hdigit.
  assert (Hlt : (x `mod` 10 < 10)%N) by (apply N.mod_lt; lia).
  specialize (Hdigit Hlt).
  assert (Hsplit : Z.of_N x = 10 * Z.of_N (x `div` 10) + Z.of_N (x `mod` 10)).
  { rewrite (N.div_mod x 10) at 1 by lia. lia. }
  destruct (decide (x `div` 10 = 0)%N) as [Hzero | Hnz].
  - exists (String (pretty_N_char (x `mod` 10)) ""), 10. split_and!.
    + done.
    + simpl. unfold is_digit. by rewrite Hdigit.
    + intros s. rewrite pretty_N_go_step by done. by rewrite Hzero, pretty_N_go_0.
    + intros rest acc. rewrite string_app_cons. simpl. rewrite Hdigit.
      do 2 f_equal. rewrite Hsplit, Hzero. lia.
  - destruct (IH (x `div` 10)%N) as (d & p & Hne & Hdig & Hgo & Hval).
    { apply N.div_lt; lia. }
    { lia. }
    exists (d +:+ String (pretty_N_char (x `mod` 10)) ""), (10 * p). split_and!.
    + by destruct d.
    + rewrite string_forall_app, Hdig. simpl. unfold is_digit. by rewrite Hdigit.
    + intros s. rewrite pretty_N_go_step by done. rewrite Hgo.
      by rewrite string_app_assoc.
    + intros rest acc. rewrite string_app_assoc, Hval, string_app_cons. simpl.
      rewrite Hdigit. do 2 f_equal. rewrite Hsplit. lia.
Qed.

(** The decimal rendering of a non-zero integer: an optional minus sign and
    a non-empty run of digits whose value is the absolute value. *)
Lemma pretty_Z_digits (n : Z) :
  n ≠ 0 →
  ∃ d, pretty n = (if n <? 0 then String "-" d else d)
       ∧ d ≠ EmptyString
       ∧ string_forall is_digit d = true
       ∧ strtol_digits d None = Some (Z.abs n).
Proof.
  intros Hnz.
  assert (Hpos : ∀ q : positive,
            ∃ d, pretty (N.pos q) = d ∧ d ≠ EmptyString
                 ∧ string_forall is_digit d = true
                 ∧ strtol_digits d None = Some (Z.pos q)).
  { intros q. destruct (pretty_N_go_digits (N.pos q)) as (d & p & ? & ? & Hgo & Hval);
      [lia |].
    exists d. unfold pretty, pretty_N. rewrite decide_False by done.
    rewrite Hgo, string_app_nil_r. split_and!; [done | done | done |].
    rewrite <- (string_app_nil_r d), Hval. simpl. f_equal. }
  destruct n as [|q|q]; [done | |].
  - destruct (Hpos q) as (d & Hd & ? & ? & ?). by exists d.
  - destruct (Hpos q) as (d & Hd & ? & ? & ?). exists d.
    split_and!; [| done | done | done].
    change (pretty (Z.neg q)) with ("-" +:+ pretty (N.pos q)).
    by rewrite Hd.
Qed.

Lemma stoi_pretty (n : Z) :
  literal_int n → stoi (pretty n) = Value n.
Proof.
  intros [Hnz Hrange].
  destruct (pretty_Z_digits n Hnz) as (d & -> & Hne & Hdig & Hval).
  destruct d as [|c d]; [done |].
  simpl in Hdig. apply andb_true_iff in Hdig as [Hc _].
  apply digit_char_facts in Hc as (Hsp & Hminus & Hplus & _).
  unfold stoi. destruct (Z.ltb_spec n 0) as [Hneg | Hpos].
  - cbn [skip_spaces]. change (Ascii.is_space "-") with false.
    cbv iota. change (Ascii.eqb "-" "-") with true. cbv iota beta.
    rewrite Hval. replace (- Z.abs n) with n by lia.
    unfold INT_MIN, INT_MAX in *.
    destruct (Z.leb_spec (- 2 ^ 31) n), (Z.leb_spec n (2 ^ 31 - 1)); simpl;
      first [done | lia].
  - cbn [skip_spaces]. rewrite Hsp, Hminus, Hplus, Hval.
    replace (Z.abs n) with n by lia.
    unfold INT_MIN, INT_MAX in *.
    destruct (Z.leb_spec (- 2 ^ 31) n), (Z.leb_spec n (2 ^ 31 - 1)); simpl;
      first [done | lia].
Qed.

Lemma pretty_token (n : Z) :
  n ≠ 0 →
  no_space (pretty n) ∧ pretty n ≠ EmptyString
  ∧ String.eqb (pretty n) "c" = false ∧ String.eqb (pretty n) "p" = false.
Proof.
  intros Hnz.
  destruct (pretty_Z_digits n Hnz) as (d & -> & Hne & Hdig & _).
  assert (Hns : no_space d).
  { eapply string_forall_impl; [| done]. intros c Hc.
    apply digit_char_facts in Hc as (-> & _). done. }
  destruct d as [|c d]; [done |].
  pose proof Hdig as [Hc _]%andb_true_iff.
  apply digit_char_facts in Hc as (_ & _ & _ & Hcc & Hcp).
  destruct (n <? 0).
  - split_and!; [| done | done | done]. unfold no_space. simpl. apply Hns.
  - split_and!; [done | done | |]; simpl.
    + by rewrite Hcc.
    + by rewrite Hcp.
Qed.

(** ** The parser: reading DIMACS text back *)

Lemma literals_line_app (c : list Z) (s : string) :
  literals_line c +:+ s
  = foldr (λ n s, pretty n +:+ String " " s) s c.
Proof.
  induction c as [|n c IH]; [done |]. simpl.
  by rewrite string_app_assoc, string_app_cons, IH.
Qed.

Lemma tokens_of_literals_line (c : list Z) (s : string) :
  Forall literal_int c →
  tokens_of (literals_line c +:+ s) None = map pretty c ++ tokens_of s None.
Proof.
  rewrite literals_line_app.
  induction 1 as [|n c [Hnz _] _ IH]; [done |]. simpl.
  destruct (pretty_token n Hnz) as (Hns & Hne & _).
  by rewrite tokens_of_word, IH.
Qed.

Lemma no_newline_literals_line (c : list Z) (s : string) :
  Forall literal_int c → no_newline s → no_newline (literals_line c +:+ s).
Proof.
  rewrite literals_line_app. intros Hc Hs.
  induction Hc as [|n c [Hnz _] _ IH]; [done |]. simpl.
  destruct (pretty_token n Hnz) as (Hns & _).
  unfold no_newline in *. rewrite string_forall_app. simpl. rewrite IH.
  rewrite andb_true_r.
  eapply string_forall_impl; [| exact Hns].
  intros ch Hch. apply negb_true_iff in Hch. apply negb_true_iff.
  destruct (Ascii.eqb_spec ch newline) as [-> | ?]; done.
Qed.

Lemma parse_tokens_literals (c : list Z) (tokens : list string)
    (cls : list Clause) (cur : Clause) :
  Forall literal_int c →
  parse_tokens (map pretty c ++ tokens) cls cur
  = parse_tokens tokens cls (cur ++ map Literal_of_int c).
Proof.
  intros Hc. revert cur. induction Hc as [|n c Hn _ IH]; intros cur.
  - by rewrite app_nil_r.
  - pose proof Hn as [Hnz Hrange].
    destruct (pretty_token n Hnz) as (_ & _ & Hcc & Hcp).
    cbn [map app parse_tokens]. rewrite Hcc, Hcp, (stoi_pretty n Hn).
    cbn [orb].
    destruct (Z.eqb_spec n 0) as [? | _]; [done |].
    destruct (Z.eqb_spec n INT_MIN) as [-> | _].
    { unfold INT_MIN, INT_MAX in Hrange. lia. }
    rewrite IH. by rewrite <- app_assoc.
Qed.

Lemma parse_tokens_terminator (cls : list Clause) (cur : Clause) :
  parse_tokens ["0"] cls cur = Value (cls ++ [cur], []).
Proof. reflexivity. Qed.

Lemma parse_lines_dimacs (cls : list (list Z)) :
  Forall (Forall literal_int) cls →
  ∀ acc, parse_lines (map dimacs_line cls) acc []
         = Value (acc ++ clauses_of_ints cls, []).
Proof.
  induction 1 as [|c cls Hc _ IH]; intros acc; simpl.
  - by rewrite app_nil_r.
  - unfold dimacs_line at 1. rewrite tokens_of_literals_line by done.
    change (tokens_of "0" None) with ["0"].
    rewrite parse_tokens_literals by done.
    rewrite parse_tokens_terminator, IH. simpl.
    by rewrite <- app_assoc.
Qed.

(** The parser reads DIMACS text back: a clause list written one clause per
    line, the integers of the literals in decimal separated by blanks and
    followed by [0], is parsed to the formula of exactly those clauses,
    provided every integer is non-zero and its absolute value an [int]. *)
Theorem parse_dimacs_round_trip :
  ∀ cls : list (list Z),
    Forall (Forall literal_int) cls →
    parse_dimacs_cnf (dimacs cls) = Value (Formula_new (clauses_of_ints cls)).
Proof.
  intros cls Hcls. unfold parse_dimacs_cnf, dimacs.
  rewrite getlines_unlines.
  - by rewrite parse_lines_dimacs.
  - apply Forall_fmap. eapply Forall_impl; [done |].
    intros c Hc. by apply no_newline_literals_line.
Qed.

Lemma parse_dimacs_round_trip_witness :
  parse_dimacs_cnf (dimacs [[1; -2]; [120; 3; -45]])
  = Value (Formula_new (clauses_of_ints [[1; -2]; [120; 3; -45]])).
Proof.
  apply parse_dimacs_round_trip.
  repeat constructor; try discriminate; vm_compute; discriminate.
Defined.

(** A clause whose terminating [0] is missing at the end of the file is
    dropped without notice: literals after the last [0] do not reach the
    formula. *)
Theorem parse_drops_unterminated_clause :
  ∀ (lines : list string) (c : list Z) (formula : Formula),
    Forall no_newline lines → Forall literal_int c →
    parse_dimacs_cnf (unlines lines) = Value formula →
    parse_dimacs_cnf (unlines (lines ++ [literals_line c])) = Value formula.
Proof.
  intros lines c formula Hlines Hc. unfold parse_dimacs_cnf.
  rewrite !getlines_unlines; [| | done].
  - rewrite parse_lines_app.
    destruct (parse_lines lines [] []) as [[cls cur]|e|]; [| done | done].
    intros Hformula. simpl.
    rewrite <- (string_app_nil_r (literals_line c)).
    rewrite tokens_of_literals_line by done. simpl.
    rewrite parse_tokens_literals by done. done.
  - apply Forall_app. split; [done |]. constructor; [| done].
    rewrite <- (string_app_nil_r (literals_line c)).
    by apply no_newline_literals_line.
Qed.

Lemma parse_drops_unterminated_clause_witness :
  parse_dimacs_cnf (unlines ["1 -2 0"; "2 0"; literals_line [3; -1]])
  = Value (Formula_new (clauses_of_ints [[1; -2]; [2]])).
Proof.
  apply (parse_drops_unterminated_clause ["1 -2 0"; "2 0"] [3; -1]).
  - repeat constructor.
  - repeat constructor; try discriminate; vm_compute; discriminate.
  - vm_compute. reflexivity.
Defined.

(** ** The parser: clauses that span lines *)

Lemma tokens_of_blank (l1 l2 : string) (token : option string) :
  tokens_of (l1 +:+ String " " l2) token
  = tokens_of l1 token ++ tokens_of l2 None.
Proof.
  revert token. induction l1 as [|c l1 IH]; intros token; [done |].
  rewrite string_app_cons. simpl. destruct (Ascii.is_space c).
  - by rewrite IH, app_assoc.
  - apply IH.
Qed.

Lemma parse_tokens_app (ts1 ts2 : list string) (cls : list Clause) (cur : Clause) :
  Forall (λ t, t ≠ "c" ∧ t ≠ "p") ts1 →
  parse_tokens (ts1 ++ ts2) cls cur
  = match parse_tokens ts1 cls cur with
    | Value (cls', cur') => parse_tokens ts2 cls' cur'
    | Throws e => Throws e
    | UndefinedBehaviour => UndefinedBehaviour
    end.
Proof.
  intros Hts. revert cls cur.
  induction Hts as [|t ts1 [Hc Hp] _ IH]; intros cls cur; [done |].
  cbn [app parse_tokens].
  apply String.eqb_neq in Hc, Hp. rewrite Hc, Hp. cbn [orb].
  destruct (stoi t) as [lit|e|]; [| done | done].
  destruct (lit =? 0); [apply IH |].
  destruct (lit =? INT_MIN); [done | apply IH].
Qed.

(** A line break between two tokens counts as a blank, so a clause may span
    lines: two consecutive lines can be joined by a blank without changing
    the result, provided no token of the first is [c] or [p] (which would
    make the parser skip the rest of the joined line). *)
Theorem parse_line_break_is_blank :
  ∀ (before after : list string) (l1 l2 : string),
    Forall no_newline before → Forall no_newline after →
    no_newline l1 → no_newline l2 →
    Forall (λ t, t ≠ "c" ∧ t ≠ "p") (tokens_of l1 None) →
    parse_dimacs_cnf (unlines (before ++ l1 :: l2 :: after))
    = parse_dimacs_cnf (unlines (before ++ (l1 +:+ String " " l2) :: after)).
Proof.
  intros before after l1 l2 Hb Ha H1 H2 Htokens. unfold parse_dimacs_cnf.
  rewrite !getlines_unlines.
  - rewrite !parse_lines_app.
    destruct (parse_lines before [] []) as [[cls cur]|e|]; [| done | done].
    cbn [parse_lines]. rewrite tokens_of_blank, parse_tokens_app by done.
    by destruct (parse_tokens (tokens_of l1 None) cls cur) as [[cls' cur']|e|].
  - apply Forall_app. split; [done |]. constructor; [| done].
    unfold no_newline in *. rewrite string_forall_app, H1. simpl. by rewrite H2.
  - apply Forall_app. split; [done |]. by repeat constructor.
Qed.

Lemma parse_line_break_is_blank_witness :
  parse_dimacs_cnf (unlines ["p cnf 3 2"; "1 -2"; "3 0 2 0"])
  = parse_dimacs_cnf (unlines ["p cnf 3 2"; "1 -2 3 0 2 0"]).
Proof.
  apply (parse_line_break_is_blank ["p cnf 3 2"] [] "1 -2" "3 0 2 0");
    repeat constructor; done.
Defined.

(** ** Printing *)

Lemma Literal_to_string_first (n : Z) :
  ∃ c s, pretty n = String c s ∧ c ≠ "194"%char.
Proof.
  destruct (decide (n = 0)) as [-> | Hnz].
  - by exists "0"%char, EmptyString.
  - destruct (pretty_Z_digits n Hnz) as (d & -> & Hne & Hdig & _).
    destruct (n <? 0); [by eexists _, _ |].
    destruct d as [|c d]; [done |]. exists c, d. split; [done |].
    apply andb_true_iff in Hdig as [Hc _]. by intros ->.
Qed.

(** [Literal::to_string] is injective: two literals that print the same are
    the same literal. *)
Theorem Literal_to_string_injective :
  ∀ l1 l2 : Literal, Literal_to_string l1 = Literal_to_string l2 → l1 = l2.
Proof.
  intros [v1 n1] [v2 n2]. unfold Literal_to_string. simpl.
  destruct (Literal_to_string_first v1) as (c1 & s1 & H1 & Hc1).
  destruct (Literal_to_string_first v2) as (c2 & s2 & H2 & Hc2).
  destruct n1, n2.
  - intros Heq. apply (inj (String.app _)) in Heq.
    by apply (inj pretty) in Heq as ->.
  - rewrite H2. intros [= Heq _]. by subst c2.
  - rewrite H1. intros [= Heq _]. by subst c1.
  - intros Heq. by apply (inj pretty) in Heq as ->.
Qed.

Lemma Literal_to_string_injective_witness :
  Literal_of_int (-12) = mkLiteral 12 true.
Proof.
  apply Literal_to_string_injective. vm_compute. reflexivity.
Defined.

(** ** The completeness test of the driver *)

(** [all_variables_assigned] compares two sizes.  On a trail whose entries
    are all for variables of the formula, as the driver keeps it, the test
    succeeds exactly when every variable of the formula has an entry.
    Without that proviso it can succeed with a variable left unassigned: an
    entry for a variable outside the formula is counted too. *)
Theorem all_variables_assigned_iff :
  (∀ (formula : Formula) (a : Assignments),
     within_variables formula a →
     (all_variables_assigned formula a = true
      ↔ ∀ v, v ∈ get_variables formula → ¬ unassigned a v))
  ∧ (∃ (formula : Formula) (a : Assignments) (v : Z),
       all_variables_assigned formula a = true
       ∧ v ∈ get_variables formula ∧ unassigned a v).
Proof.
  split.
  - intros formula a Hw. split.
    + intros Hall v Hv Hun%not_elem_of_dom. apply Hun.
      by rewrite (all_variables_assigned_dom formula a Hw Hall).
    + intros Hall. apply bool_decide_eq_true.
      unfold Assignments_size. rewrite <- size_dom. f_equal.
      apply set_eq. intros v. split.
      * intros Hv. apply elem_of_dom. apply not_eq_None_Some. by apply Hall.
      * intros [e He]%elem_of_dom. apply Hw. unfold unassigned. congruence.
  - exists (Formula_new (clauses_of_ints [[1]])),
      (assign Assignments_new 2 true None), 1.
    split_and!; vm_compute; reflexivity.
Qed.

Lemma all_variables_assigned_iff_witness : ¬ unassigned sample_trail 3.
Proof.
  assert (Hw : within_variables (Formula_new sample_clauses) sample_trail).
  { intros v Hv.
    destruct (assignments sample_trail !! v) as [e|] eqn:He; [| done].
    apply elem_of_map_to_list in He. apply list_elem_of_In in He.
    vm_compute in He.
    destruct He as [[= <- _] | [[= <- _] | [[= <- _] | [[= <- _] | []]]]];
      vm_compute; reflexivity. }
  apply (proj1 (proj1 all_variables_assigned_iff (Formula_new sample_clauses)
                  sample_trail Hw));
    vm_compute; reflexivity.
Defined.

(** * Runs of the driver and their nondeterminism *)

(** ** The iteration order of [backtrack] does not matter *)

Lemma backtracks_deterministic (a : Assignments) (b : Z) (a' : Assignments) :
  backtracks a b a' → a' = backtrack a b.
Proof.
  intros [order Hperm]. unfold backtrack_in_order, backtrack.
  apply Assignments_eq; [| by rewrite !unassign_all_dl].
  apply map_eq. intros v. rewrite !unassign_all_lookup.
  assert (Hkeys : (filter (λ entry, b < a_dl entry.2) order).*1
                  ≡ₚ (filter (λ entry, b < a_dl entry.2)
                        (map_to_list (assignments a))).*1)
    by by rewrite Hperm.
  destruct (decide (v ∈ (filter (λ entry, b < a_dl entry.2) order).*1))
    as [Hin | Hnin].
  - rewrite decide_True; [done |]. by rewrite <- Hkeys.
  - rewrite decide_False; [done |]. by rewrite <- Hkeys.
Qed.

Lemma backtracks_backtrack (a : Assignments) (b : Z) :
  backtracks a b (backtrack a b).
Proof. by apply (backtracks_order a b (map_to_list (assignments a))). Qed.

(** ** The inner loop *)

Lemma inner_runs_deterministic formula a o1 o2 :
  inner_runs formula a o1 → inner_runs formula a o2 → o1 = o2.
Proof.
  intros Hrun1. revert o2.
  induction Hrun1 as [formula a reason clause a' Hup Hreason
                     |formula a c a' Hup Hb
                     |formula a c a' a'' o Hup Hb Hback _ IH];
    intros o2 Hrun2; inversion Hrun2; subst;
    match goal with
    | H1 : unit_propagation ?f ?x = _, H2 : unit_propagation ?f ?x = _ |- _ =>
        rewrite H1 in H2; injection H2 as ?; subst
    end; try done; try lia.
  apply IH.
  match goal with
  | H1 : backtracks ?x ?l _, H2 : backtracks ?x ?l _ |- _ =>
      apply backtracks_deterministic in H1, H2; subst
  end.
  done.
Qed.

(** The bound the executable model puts on the inner loop is no
    restriction: a run of the inner loop is the value of [propagate_loop]
    for every bound above [dl], and conversely. *)
Lemma inner_runs_propagate_loop formula a o :
  inner_runs formula a o →
  ∀ rounds, (Z.to_nat (dl a) < rounds)%nat → propagate_loop rounds formula a = o.
Proof.
  induction 1 as [formula a reason clause a' Hup Hreason
                 |formula a c a' Hup Hb
                 |formula a c a' a'' o Hup Hb Hback _ IH];
    intros [|rounds] Hrounds; try lia;
    unfold propagate_loop; fold propagate_loop; rewrite Hup.
  - by rewrite Hreason.
  - simpl. destruct (conflict_analysis c a') as [b lc]. simpl in Hb.
    by destruct (Z.ltb_spec b 0); [| lia].
  - simpl. apply backtracks_deterministic in Hback as ->.
    destruct (unit_propagation_spec formula a)
      as (r & cl & a2 & Hup' & (Hdl & _) & _).
    rewrite Hup in Hup'. injection Hup' as <- <- <-.
    assert (Hlevel : (conflict_analysis c a').1 = dl a - 1 ∧ dl a ≠ 0).
    { revert Hb. unfold conflict_analysis. rewrite Hdl.
      destruct (Z.eqb_spec (dl a) 0); simpl; [lia | done]. }
    destruct (conflict_analysis c a') as [b lc]. simpl in *.
    destruct (Z.ltb_spec b 0); [lia |].
    apply IH. simpl. lia.
Qed.

Lemma propagate_loop_inner_runs (rounds : nat) :
  ∀ formula a,
    propagate_loop rounds formula a ≠ InnerStuck →
    inner_runs formula a (propagate_loop rounds formula a).
Proof.
  induction rounds as [|rounds IH]; intros formula a; [done |].
  unfold propagate_loop; fold propagate_loop.
  destruct (unit_propagation formula a) as [[[reason clause] a']|] eqn:Hup;
    [| done].
  destruct (String.eqb reason "conflict") eqn:Hreason; simpl.
  - apply String.eqb_eq in Hreason as ->.
    destruct clause as [c|]; [| done].
    destruct (conflict_analysis c a') as [b lc] eqn:Hca.
    destruct (Z.ltb_spec b 0) as [Hneg | Hpos].
    + intros _. eapply inner_runs_nullopt; [done |]. by rewrite Hca.
    + intros Hns. eapply inner_runs_learn; [done | by rewrite Hca | |].
      * apply backtracks_backtrack.
      * rewrite Hca. simpl. by apply IH.
  - intros _. by eapply inner_runs_break.
Qed.

(** ** The main loop and [cdcl_solve] *)

Section RunsDeterministic.
Variable picks : Formula → Assignments → Z * bool → Prop.

(** The heuristic has at most one answer. *)
Hypothesis picks_functional :
  ∀ formula a x y, picks formula a x → picks formula a y → x = y.

Lemma loop_runs_deterministic formula a r1 f1 r2 f2 :
  loop_runs picks formula a r1 f1 → loop_runs picks formula a r2 f2 →
  r1 = r2 ∧ f1 = f2.
Proof.
  intros Hrun1. revert r2 f2.
  induction Hrun1 as [formula a Hall
                     |formula a var val formula' Hall Hpick Hinner
                     |formula a var val formula' a' r formula'' Hall Hpick Hinner
                        _ IH];
    intros r2 f2 Hrun2; inversion Hrun2; subst; try congruence; try done;
    match goal with
    | H : picks _ _ (?var', ?val') |- _ =>
        lazymatch H with
        | Hpick => fail
        | _ => pose proof (picks_functional _ _ _ _ Hpick H) as Hsame
        end
    end;
    injection Hsame as <- <-;
    match goal with
    | H : inner_runs _ _ ?o |- _ =>
        lazymatch H with
        | Hinner => fail
        | _ => pose proof (inner_runs_deterministic _ _ _ _ Hinner H) as Hout
        end
    end;
    simplify_eq; [done | by apply IH].
Qed.

Lemma cdcl_solve_runs_deterministic formula r1 f1 r2 f2 :
  cdcl_solve_runs picks formula r1 f1 → cdcl_solve_runs picks formula r2 f2 →
  r1 = r2 ∧ f1 = f2.
Proof.
  intros Hrun1 Hrun2. inversion Hrun1; inversion Hrun2; subst;
    match goal with
    | H1 : unit_propagation ?f ?x = _, H2 : unit_propagation ?f ?x = _ |- _ =>
        rewrite H1 in H2; injection H2 as ?; subst
    end; try done.
  by eapply loop_runs_deterministic.
Qed.
End RunsDeterministic.

Section RunsAdequate.
(** The runs that return are the values of the executable driver: [picks]
    holds the answers of the heuristic [pick] over all draws. *)
Context {D : Type}.
Variable pick : D → Formula → Assignments → option (Z * bool).
Variable picks : Formula → Assignments → Z * bool → Prop.
Hypothesis picks_spec :
  ∀ formula a x, picks formula a x ↔ ∃ d, pick d formula a = Some x.

Lemma cdcl_loop_runs (draws : list D) :
  ∀ formula a result formula',
    cdcl_loop pick draws formula a = Returned result formula' →
    loop_runs picks formula a result formula'.
Proof.
  induction draws as [|d draws IH]; intros formula a result formula'; simpl;
    destruct (all_variables_assigned formula a) eqn:Hall;
    try (intros [= <- <-]; by apply loop_runs_return); try done.
  destruct (pick d formula a) as [[var val]|] eqn:Hpick; [| done].
  assert (Hpicks : picks formula a (var, val)) by (apply picks_spec; by exists d).
  pose proof (propagate_loop_inner_runs (S (Z.to_nat (dl a + 1))) formula
                (assign (set_dl a (dl a + 1)) var val None)) as Hinner.
  destruct (propagate_loop (S (Z.to_nat (dl a + 1))) formula
              (assign (set_dl a (dl a + 1)) var val None))
    as [f1 a1|f1|]; [| | done].
  - intros Hrun. eapply loop_runs_decide; [done | done | by apply Hinner |].
    by apply IH.
  - intros [= <- <-]. eapply loop_runs_nullopt; [done | done |]. by apply Hinner.
Qed.

Lemma cdcl_solve_with_runs (draws : list D) formula result formula' :
  cdcl_solve_with pick draws formula = Returned result formula' →
  cdcl_solve_runs picks formula result formula'.
Proof.
  unfold cdcl_solve_with.
  destruct (unit_propagation formula Assignments_new)
    as [[[reason clause] a]|] eqn:Hup; [| done].
  destruct (String.eqb reason "conflict") eqn:Hreason.
  - apply String.eqb_eq in Hreason as ->. intros [= <- <-].
    by eapply cdcl_solve_runs_conflict.
  - intros Hloop. eapply cdcl_solve_runs_loop; [done | done |].
    by eapply cdcl_loop_runs.
Qed.

Lemma loop_runs_cdcl_loop formula a result formula' :
  loop_runs picks formula a result formula' →
  ∃ draws, cdcl_loop pick draws formula a = Returned result formula'.
Proof.
  induction 1 as [formula a Hall
                 |formula a var val formula' Hall Hpick Hinner
                 |formula a var val formula' a' r formula'' Hall Hpick Hinner
                    _ [draws IH]].
  - exists []. simpl. by rewrite Hall.
  - apply picks_spec in Hpick as [d Hpick]. exists [d]. simpl.
    rewrite Hall, Hpick. simpl.
    by rewrite (inner_runs_propagate_loop _ _ _ Hinner) by (simpl; lia).
  - apply picks_spec in Hpick as [d Hpick]. exists (d :: draws). simpl.
    rewrite Hall, Hpick. simpl.
    by rewrite (inner_runs_propagate_loop _ _ _ Hinner) by (simpl; lia).
Qed.

Lemma cdcl_solve_runs_with formula result formula' :
  cdcl_solve_runs picks formula result formula' →
  ∃ draws, cdcl_solve_with pick draws formula = Returned result formula'.
Proof.
  destruct 1 as [formula clause a Hup
                |formula reason clause a result formula' Hup Hreason Hloop].
  - exists []. unfold cdcl_solve_with. by rewrite Hup.
  - destruct (loop_runs_cdcl_loop _ _ _ _ Hloop) as [draws Hrun].
    exists draws. unfold cdcl_solve_with. by rewrite Hup, Hreason.
Qed.
End RunsAdequate.

(** The runs of [cdcl_solve] with the source's heuristic are the values of
    the executable driver over all sequences of draws. *)
Lemma cdcl_solve_runs_iff_draws formula result formula' :
  cdcl_solve_runs random_pick formula result formula'
  ↔ ∃ draws, cdcl_solve draws formula = Returned result formula'.
Proof.
  split.
  - by apply (cdcl_solve_runs_with pick_branching_variable random_pick).
  - intros [draws Hrun].
    by apply (cdcl_solve_with_runs pick_branching_variable random_pick) in Hrun.
Qed.

(** Likewise under a policy, over all bounds on the number of decisions. *)
Lemma cdcl_solve_runs_iff_policy policy formula result formula' :
  cdcl_solve_runs (policy_pick policy) formula result formula'
  ↔ ∃ n, cdcl_solve_policy policy n formula = Returned result formula'.
Proof.
  assert (Hspec : ∀ f a x, policy_pick policy f a x
                           ↔ ∃ _ : unit, policy f a = Some x).
  { intros f a x. split; [by exists () | by intros [_ ?]]. }
  split.
  - intros Hrun.
    destruct (cdcl_solve_runs_with (λ _ : unit, policy) (policy_pick policy)
                Hspec _ _ _ Hrun) as [draws Hdraws].
    exists (length draws). unfold cdcl_solve_policy.
    replace (replicate (length draws) ()) with draws; [done |].
    clear Hdraws. induction draws as [|[] draws IH]; [done |].
    simpl. by rewrite <- IH.
  - intros [n Hrun].
    by apply (cdcl_solve_with_runs (λ _ : unit, policy) (policy_pick policy)
                Hspec) in Hrun.
Qed.

(** C9: in the runs of [cdcl_solve], where the answers of the heuristic and
    the iteration order of [backtrack] are left open, replacing the
    heuristic by a function of the formula and the trail leaves one
    outcome: any two runs on the same formula return the same value, the
    same assignment on Sat, and leave the same formula; the iteration order
    has no influence.  With the source's heuristic there are two runs on
    one formula that return different assignments: the branching is a
    source of nondeterminism, and the only one. *)
Theorem cdcl_solve_runs_deterministic_modulo_branching :
  (∀ (policy : Formula → Assignments → option (Z * bool)) (formula : Formula)
     r1 f1 r2 f2,
     cdcl_solve_runs (policy_pick policy) formula r1 f1 →
     cdcl_solve_runs (policy_pick policy) formula r2 f2 →
     r1 = r2 ∧ f1 = f2)
  ∧ (∀ a b a1 a2, backtracks a b a1 → backtracks a b a2 → a1 = a2)
  ∧ (∃ formula a1 f1 a2 f2,
       cdcl_solve_runs random_pick formula (Some a1) f1
       ∧ cdcl_solve_runs random_pick formula (Some a2) f2
       ∧ a1 ≠ a2).
Proof.
  split_and!.
  - intros policy formula r1 f1 r2 f2.
    apply cdcl_solve_runs_deterministic.
    intros f a x y. unfold policy_pick. congruence.
  - intros a b a1 a2 H1%backtracks_deterministic H2%backtracks_deterministic.
    congruence.
  - exists (Formula_new binary_clause), binary_trail_1, (Formula_new binary_clause),
      binary_trail_2, (Formula_new binary_clause).
    split_and!.
    + apply cdcl_solve_runs_iff_draws. exists [(0%nat, false)].
      vm_compute. reflexivity.
    + apply cdcl_solve_runs_iff_draws. exists [(1%nat, false)].
      vm_compute. reflexivity.
    + intros Heq.
      assert (Hv : value binary_trail_1 (Literal_of_int 1)
                   = value binary_trail_2 (Literal_of_int 1)) by by rewrite Heq.
      vm_compute in Hv. discriminate.
Qed.

Lemma cdcl_solve_runs_deterministic_modulo_branching_witness :
  (∃ r1 f1 r2 f2,
     cdcl_solve_runs (policy_pick first_unassigned_true)
       (Formula_new sample_clauses) r1 f1
     ∧ cdcl_solve_runs (policy_pick first_unassigned_true)
         (Formula_new sample_clauses) r2 f2
     ∧ r1 = r2 ∧ f1 = f2)
  ∧ backtrack_in_order (reverse (map_to_list (assignments sample_trail)))
      sample_trail 1
    = backtrack_in_order (map_to_list (assignments sample_trail)) sample_trail 1.
Proof.
  split.
  - destruct (cdcl_solve_policy first_unassigned_true 3
                (Formula_new sample_clauses))
      as [r1 f1| |] eqn:Hrun1; [| by vm_compute in Hrun1 ..].
    destruct (cdcl_solve_policy first_unassigned_true 5
                (Formula_new sample_clauses))
      as [r2 f2| |] eqn:Hrun2; [| by vm_compute in Hrun2 ..].
    assert (H1 : cdcl_solve_runs (policy_pick first_unassigned_true)
                   (Formula_new sample_clauses) r1 f1)
      by (apply cdcl_solve_runs_iff_policy; by exists 3%nat).
    assert (H2 : cdcl_solve_runs (policy_pick first_unassigned_true)
                   (Formula_new sample_clauses) r2 f2)
      by (apply cdcl_solve_runs_iff_policy; by exists 5%nat).
    exists r1, f1, r2, f2. split_and!; [done | done | |];
      by destruct (proj1 cdcl_solve_runs_deterministic_modulo_branching
                     first_unassigned_true (Formula_new sample_clauses)
                     r1 f1 r2 f2 H1 H2).
  - apply (proj1 (proj2 cdcl_solve_runs_deterministic_modulo_branching)
             sample_trail 1).
    + apply backtracks_order. apply reverse_Permutation.
    + by apply backtracks_order.
Defined.
